(** * medaka.prediction: the data loading pipeline and the inference driver

  A shallow embedding of [src/medaka/prediction.py].

  Definitions:
  - [NdArray]: the part of numpy the batcher uses ([np.stack], iteration
    over the leading axis), arrays being views on a buffer;
  - [PyQueue]: Python's [queue.Queue] as [DataLoader] uses it
    ([put], [get_nowait], [maxsize]);
  - [Grouper]: [medaka.common.grouper];
  - [Loader]: [DataLoader] as a transition system, one thread per
    [_region_worker], one for [_batch_worker], one for the consumer that
    iterates over the loader; a schedule says which thread moves next;
  - [Driver]: [run_prediction] (the construction of the loader), the
    thread configuration of [predict] and its assignments to the
    environment;
  - [Generators]: [_get_samples] and [_batch_worker] read sequentially, as
    functions of the items popped from the sample queue;
  - [Writer]: the loop of [run_prediction] over the batches;
  - [Regions]: the splitting of the regions in [predict];
  - [Scenario], [Mixed]: small generators and schedules.

  Facts: [NdArrayFacts], [GrouperFacts], [ListFacts], [QueueFacts],
  [BatchFacts], then the invariants of the pipeline and the claims on it in
  [LoaderFacts], the driver in [DriverFacts], and the claims on the small
  runs in [Examples].  Further properties of the code follow: the threads
  in [ThreadFacts], the sequential reading of the batcher in
  [GeneratorFacts], the loop of [run_prediction] in [WriterFacts], the
  regions in [RegionFacts], the environment in [ThreadConfigFacts], and
  their instances on small runs in [MoreExamples].

  The sizes and counts of [DataLoader] ([batch_size], [batch_cache_size],
  [bam_workers], [maxsize]) are Python integers that are never negative in
  use; they are natural numbers here.  [args.threads] is an integer. *)

From stdpp Require Import prelude list gmap strings.
From Stdlib Require Import DecimalString.

(** ** numpy arrays as views *)

Module NdArray.
Section ndarray.
(** The element type: the bit pattern of one entry of a feature matrix. *)
Context {elt : Type}.

(** An array is a C-contiguous view: a buffer, the offset of the first
    element and a shape.  Two arrays with the same [buf] share storage. *)
Record ndarray := mk_ndarray {
  buf : list elt;
  off : nat;
  shape : list nat
}.

Definition size_of (sh : list nat) : nat := foldr Nat.mul 1 sh.

(** The elements the view denotes, in row-major order. *)
Definition contents (a : ndarray) : list elt :=
  take (size_of (shape a)) (drop (off a) (buf a)).

(** The view lies inside its buffer (true of every numpy array). *)
Definition wf (a : ndarray) : Prop :=
  off a + size_of (shape a) ≤ length (buf a).

(** [a[i]]: a view on the same buffer. *)
Definition index (a : ndarray) (i : nat) : option ndarray :=
  match shape a with
  | [] => None
  | k :: sh =>
      if decide (i < k)
      then Some (mk_ndarray (buf a) (off a + i * size_of sh) sh)
      else None
  end.

(** [iter(a)]: the views [a[0]], ..., [a[k-1]]. *)
Definition iter (a : ndarray) : list ndarray :=
  match shape a with
  | [] => []
  | k :: sh =>
      (λ i, mk_ndarray (buf a) (off a + i * size_of sh) sh) <$> seq 0 k
  end.

(** [np.stack(arrs)] along a new leading axis: a fresh buffer holding the
    contents of the arguments one after the other.  It raises (here
    [None]) on an empty list and when the shapes differ. *)
Definition stack (arrs : list ndarray) : option ndarray :=
  match arrs with
  | [] => None
  | a :: rest =>
      if forallb (λ b, bool_decide (shape b = shape a)) rest
      then Some (mk_ndarray (mjoin (contents <$> arrs)) 0
                            (length arrs :: shape a))
      else None
  end.
End ndarray.
Arguments ndarray : clear implicits.
End NdArray.

(** ** Python's [queue.Queue] *)

Module PyQueue.
Section queue.
Context {A : Type}.

(** A FIFO queue with its [maxsize]. *)
Record Queue := mk_queue {
  maxsize : nat;
  items : list A
}.

(** [queue.Queue(maxsize)]. *)
Definition new (n : nat) : Queue := mk_queue n [].

Definition qsize (q : Queue) : nat := length (items q).

(** [Queue.full()] is [0 < maxsize <= qsize]: a [maxsize] of zero means
    that the queue has no bound. *)
Definition full (q : Queue) : bool :=
  bool_decide (0 < maxsize q) && bool_decide (maxsize q ≤ qsize q).

(** [Queue.put(x)], blocking: [None] while the caller has to wait. *)
Definition put (q : Queue) (x : A) : option Queue :=
  if full q then None else Some (mk_queue (maxsize q) (items q ++ [x])).

(** [Queue.get_nowait()]: [None] stands for [queue.Empty]. *)
Definition get_nowait (q : Queue) : option (A * Queue) :=
  match items q with
  | [] => None
  | x :: rest => Some (x, mk_queue (maxsize q) rest)
  end.
End queue.
Arguments Queue : clear implicits.
End PyQueue.

(** ** Grouping of a stream *)

Module Grouper.
Section grouper.
Context {A : Type}.

(** Modelled from the spec: [medaka.common.grouper], which is defined in
    medaka/common.py and is not among the sources.  The spec: accumulate
    consecutive items, in arrival order, into groups of exactly
    [batch_size]; emit a group once it is full; at the end of the stream
    emit a partial group, if there is one, as a shorter final group, without
    padding.  [grouper_next] is one item arriving at the partial group
    [acc]: [inl] is a full group to emit, [inr] the longer partial group. *)
Definition grouper_next (batch_size : nat) (acc : list A) (x : A)
  : list A + list A :=
  let acc' := acc ++ [x] in
  if decide (length acc' = batch_size) then inl acc' else inr acc'.

(** Modelled from the spec: the end of the stream in
    [medaka.common.grouper]; a partial group is emitted, an empty one is
    not. *)
Definition grouper_end (acc : list A) : list (list A) :=
  match acc with
  | [] => []
  | _ => [acc]
  end.

(** Modelled from the spec: [medaka.common.grouper] on a finite stream,
    starting with the partial group [acc]. *)
Fixpoint grouper_from (batch_size : nat) (acc : list A) (gen : list A)
  : list (list A) :=
  match gen with
  | [] => grouper_end acc
  | x :: gen' =>
      match grouper_next batch_size acc x with
      | inl data => data :: grouper_from batch_size [] gen'
      | inr acc' => grouper_from batch_size acc' gen'
      end
  end.

(** Modelled from the spec: [medaka.common.grouper(gen, batch_size)]. *)
Definition grouper (gen : list A) (batch_size : nat) : list (list A) :=
  grouper_from batch_size [] gen.

(** What the claims say of the groups: full ones, then at most one shorter
    group, which is not empty. *)
Definition grouped (batch_size : nat) (gs : list (list A)) : Prop :=
  ∃ full rest,
    gs = full ++ rest ∧ Forall (λ g, length g = batch_size) full ∧
    (rest = [] ∨ ∃ g, rest = [g] ∧ 1 ≤ length g < batch_size).
End grouper.
End Grouper.

(** ** [DataLoader] *)

Module Loader.
Import NdArray PyQueue Grouper.

(** What travels on a queue: a payload or the [StopIteration] marker. *)
Inductive Msg (A : Type) : Type :=
| Payload (a : A)
| StopIteration.
Arguments Payload {A} a.
Arguments StopIteration {A}.

Definition is_stop {A} (m : Msg A) : Prop :=
  match m with
  | StopIteration => True
  | Payload _ => False
  end.

#[global] Instance is_stop_dec {A} (m : Msg A) : Decision (is_stop m).
Proof. destruct m; simpl; apply _. Defined.

Definition payload {A} (m : Msg A) : option A :=
  match m with
  | Payload a => Some a
  | StopIteration => None
  end.

(** The payloads of a queue's items, in order. *)
Definition payloads {A} (l : list (Msg A)) : list A := omap payload l.

(** The number of [StopIteration] markers among a queue's items. *)
Definition stops {A} (l : list (Msg A)) : nat := length (filter is_stop l).

Section loader.
Context {Region Remainder Meta elt : Type}.

(** A [medaka.common.Sample], as far as the loader looks at it: its
    [features], and all the other fields as [meta]. *)
Record Sample := mk_sample {
  meta : Meta;
  features : ndarray elt
}.

(** Modelled from the spec: [medaka.common.Sample.amend], defined in
    medaka/common.py which is not among the sources; the sample with its
    feature reference rebound and every other field kept. *)
Definition amend (sample : Sample) (feat : ndarray elt) : Sample :=
  mk_sample (meta sample) feat.

(** What a sample is, whatever buffer its features live in. *)
Definition value_of (s : Sample) : Meta * list nat * list elt :=
  (meta s, shape (features s), contents (features s)).

Definition wf_sample (s : Sample) : Prop := wf (features s).

(** A batch: the list of samples and the stacked array. *)
#[local] Abbreviation Batch := (list Sample * ndarray elt)%type.

(** The body of the loop of [_batch_worker] (lines 340-348): stack the
    features, and remake the samples so that their features view the
    batch. *)
Definition make_batch (data : list Sample) : option Batch :=
  batch ← stack (features <$> data);
  Some (zip_with (λ feat sample, amend sample feat) (iter batch) data, batch).

(** [DataLoader._run_region]: the samples of a region and what it
    quarantined; [None] when [medaka.features.SampleGenerator] raises. *)
Context (run_region : Region → option (list Sample * list Remainder)).
(** [self.batch_size] and [self.bam_workers]. *)
Context (batch_size bam_workers : nat).

(** A thread running [_region_worker]. *)
Inductive WState :=
| WLoop  (** at the head of the loop, line 302 *)
| WPut (pending : list Sample) (remain : list Remainder)
    (** in the loop over the samples of a region, line 312; the samples
        still to put, and the remainders to record after them *)
| WStop  (** the intake was empty: about to put [StopIteration], line 307 *)
| WDone  (** left the loop *)
| WCrashed.  (** [_run_region] raised: the thread is dead *)

(** The thread running [_batch_worker]. *)
Inductive BState :=
| BRun (acc : list Sample)
    (** [grouper] is collecting from [_get_samples]; [acc] is its partial
        group *)
| BEmit (data : list Sample) (ended : bool)
    (** in the body of the loop, line 340, with the group [data];
        [ended]: [_get_samples] has returned *)
| BFinal  (** after the loop, line 350 *)
| BDone  (** returned *)
| BCrashed (ended : bool).  (** [np.stack] raised: the thread is dead *)

Record State := mk_state {
  regions : Queue Region;               (** [self._regions] *)
  samples : Queue (Msg Sample);         (** [self._samples] *)
  batches : Queue (Msg Batch);          (** [self._batches] *)
  remainders : list Remainder;          (** [self.remainders] *)
  workers : list WState;                (** the threads of [self._sample_workers] *)
  nstops : nat;                         (** [nstops] of [_get_samples] *)
  batcher : BState;                     (** [self._bthread] *)
  consumed : list Batch;                (** what [__next__] has returned *)
  finished : bool                       (** [__next__] has raised [StopIteration] *)
}.

Definition set_regions (q : Queue Region) (s : State) : State :=
  mk_state q (samples s) (batches s) (remainders s) (workers s) (nstops s)
           (batcher s) (consumed s) (finished s).
Definition set_samples (q : Queue (Msg Sample)) (s : State) : State :=
  mk_state (regions s) q (batches s) (remainders s) (workers s) (nstops s)
           (batcher s) (consumed s) (finished s).
Definition set_batches (q : Queue (Msg Batch)) (s : State) : State :=
  mk_state (regions s) (samples s) q (remainders s) (workers s) (nstops s)
           (batcher s) (consumed s) (finished s).
Definition set_remainders (r : list Remainder) (s : State) : State :=
  mk_state (regions s) (samples s) (batches s) r (workers s) (nstops s)
           (batcher s) (consumed s) (finished s).
Definition set_worker (i : nat) (w : WState) (s : State) : State :=
  mk_state (regions s) (samples s) (batches s) (remainders s)
           (<[i:=w]> (workers s)) (nstops s) (batcher s) (consumed s)
           (finished s).
Definition set_nstops (n : nat) (s : State) : State :=
  mk_state (regions s) (samples s) (batches s) (remainders s) (workers s) n
           (batcher s) (consumed s) (finished s).
Definition set_batcher (b : BState) (s : State) : State :=
  mk_state (regions s) (samples s) (batches s) (remainders s) (workers s)
           (nstops s) b (consumed s) (finished s).
Definition set_consumed (c : list Batch) (s : State) : State :=
  mk_state (regions s) (samples s) (batches s) (remainders s) (workers s)
           (nstops s) (batcher s) c (finished s).
Definition set_finished (f : bool) (s : State) : State :=
  mk_state (regions s) (samples s) (batches s) (remainders s) (workers s)
           (nstops s) (batcher s) (consumed s) f.

(** One step of the [i]-th thread running [_region_worker]; [None] when
    the thread waits or has ended.  ([task_done] only serves [join], which
    nothing calls.) *)
Definition region_worker (i : nat) (s : State) : option State :=
  w ← workers s !! i;
  match w with
  | WLoop =>
      match get_nowait (regions s) with
      | None => Some (set_worker i WStop s)
      | Some (region, rest) =>
          match run_region region with
          | Some (smpls, remain) =>
              Some (set_worker i (WPut smpls remain) (set_regions rest s))
          | None => Some (set_worker i WCrashed (set_regions rest s))
          end
      end
  | WStop =>
      q ← put (samples s) StopIteration;
      Some (set_worker i WDone (set_samples q s))
  | WPut (sample :: pending) remain =>
      q ← put (samples s) (Payload sample);
      Some (set_worker i (WPut pending remain) (set_samples q s))
  | WPut [] remain =>
      Some (set_worker i WLoop (set_remainders (remainders s ++ remain) s))
  | WDone | WCrashed => None
  end.

(** One step of the thread running [_batch_worker], with [_get_samples]
    and [grouper] inlined.  A poll of the empty sample queue changes
    nothing ("more items may come") and is no step. *)
Definition batch_worker (s : State) : option State :=
  match batcher s with
  | BRun acc =>
      match get_nowait (samples s) with
      | None => None
      | Some (StopIteration, rest) =>
          let n := S (nstops s) in
          if decide (n = bam_workers)
          then Some (set_batcher
                       (match acc with [] => BFinal | _ => BEmit acc true end)
                       (set_nstops n (set_samples rest s)))
          else Some (set_nstops n (set_samples rest s))
      | Some (Payload res, rest) =>
          Some (set_batcher
                  (match grouper_next batch_size acc res with
                   | inl data => BEmit data false
                   | inr acc' => BRun acc'
                   end)
                  (set_samples rest s))
      end
  | BEmit data ended =>
      match make_batch data with
      | None => Some (set_batcher (BCrashed ended) s)
      | Some b =>
          q ← put (batches s) (Payload b);
          Some (set_batcher (if ended then BFinal else BRun [])
                            (set_batches q s))
      end
  | BFinal =>
      q ← put (batches s) StopIteration;
      Some (set_batcher BDone (set_batches q s))
  | BDone | BCrashed _ => None
  end.

(** One step of the consumer, which calls [__next__] until it raises
    [StopIteration].  A poll of the empty batch queue is no step. *)
Definition next (s : State) : option State :=
  if finished s then None
  else
    match get_nowait (batches s) with
    | None => None
    | Some (StopIteration, rest) =>
        Some (set_finished true (set_batches rest s))
    | Some (Payload batch, rest) =>
        Some (set_consumed (consumed s ++ [batch]) (set_batches rest s))
    end.

(** The threads. *)
Inductive Tid :=
| Worker (i : nat)
| Batcher
| Consumer.

Definition exec (t : Tid) (s : State) : option State :=
  match t with
  | Worker i => region_worker i s
  | Batcher => batch_worker s
  | Consumer => next s
  end.

(** A schedule: which thread moves at each step. *)
Fixpoint run (sched : list Tid) (s : State) : option State :=
  match sched with
  | [] => Some s
  | t :: sched' => s' ← exec t s; run sched' s'
  end.

Definition reachable (s0 s : State) : Prop :=
  ∃ sched, run sched s0 = Some s.

(** The steps of [exec] as a relation, one case per transition of a
    thread. *)
Inductive transition (s : State) : Tid → State → Prop :=
| t_intake_empty i :
    workers s !! i = Some WLoop →
    items (regions s) = [] →
    transition s (Worker i) (set_worker i WStop s)
| t_take i r rest smpls remain :
    workers s !! i = Some WLoop →
    items (regions s) = r :: rest →
    run_region r = Some (smpls, remain) →
    transition s (Worker i)
      (set_worker i (WPut smpls remain)
         (set_regions (mk_queue (maxsize (regions s)) rest) s))
| t_generation_error i r rest :
    workers s !! i = Some WLoop →
    items (regions s) = r :: rest →
    run_region r = None →
    transition s (Worker i)
      (set_worker i WCrashed
         (set_regions (mk_queue (maxsize (regions s)) rest) s))
| t_sentinel i :
    workers s !! i = Some WStop →
    full (samples s) = false →
    transition s (Worker i)
      (set_worker i WDone
         (set_samples
            (mk_queue (maxsize (samples s))
               (items (samples s) ++ [StopIteration])) s))
| t_put i x pending remain :
    workers s !! i = Some (WPut (x :: pending) remain) →
    full (samples s) = false →
    transition s (Worker i)
      (set_worker i (WPut pending remain)
         (set_samples
            (mk_queue (maxsize (samples s))
               (items (samples s) ++ [Payload x])) s))
| t_extend i remain :
    workers s !! i = Some (WPut [] remain) →
    transition s (Worker i)
      (set_worker i WLoop (set_remainders (remainders s ++ remain) s))
| t_pop_sample acc x rest :
    batcher s = BRun acc →
    items (samples s) = Payload x :: rest →
    transition s Batcher
      (set_batcher
         (match grouper_next batch_size acc x with
          | inl data => BEmit data false
          | inr acc' => BRun acc'
          end)
         (set_samples (mk_queue (maxsize (samples s)) rest) s))
| t_pop_stop acc rest :
    batcher s = BRun acc →
    items (samples s) = StopIteration :: rest →
    S (nstops s) ≠ bam_workers →
    transition s Batcher
      (set_nstops (S (nstops s))
         (set_samples (mk_queue (maxsize (samples s)) rest) s))
| t_pop_last_stop acc rest :
    batcher s = BRun acc →
    items (samples s) = StopIteration :: rest →
    S (nstops s) = bam_workers →
    transition s Batcher
      (set_batcher (match acc with [] => BFinal | _ => BEmit acc true end)
         (set_nstops (S (nstops s))
            (set_samples (mk_queue (maxsize (samples s)) rest) s)))
| t_emit data ended b :
    batcher s = BEmit data ended →
    make_batch data = Some b →
    full (batches s) = false →
    transition s Batcher
      (set_batcher (if ended then BFinal else BRun [])
         (set_batches
            (mk_queue (maxsize (batches s))
               (items (batches s) ++ [Payload b])) s))
| t_stack_error data ended :
    batcher s = BEmit data ended →
    make_batch data = None →
    transition s Batcher (set_batcher (BCrashed ended) s)
| t_final :
    batcher s = BFinal →
    full (batches s) = false →
    transition s Batcher
      (set_batcher BDone
         (set_batches
            (mk_queue (maxsize (batches s))
               (items (batches s) ++ [StopIteration])) s))
| t_next b rest :
    finished s = false →
    items (batches s) = Payload b :: rest →
    transition s Consumer
      (set_consumed (consumed s ++ [b])
         (set_batches (mk_queue (maxsize (batches s)) rest) s))
| t_end rest :
    finished s = false →
    items (batches s) = StopIteration :: rest →
    transition s Consumer
      (set_finished true
         (set_batches (mk_queue (maxsize (batches s)) rest) s)).

(** *** Observations on a state *)

(** What [_run_region] returns for a region, an error counting for
    nothing. *)
Definition gen_samples (r : Region) : list Sample :=
  match run_region r with
  | Some (smpls, _) => smpls
  | None => []
  end.

Definition gen_remain (r : Region) : list Remainder :=
  match run_region r with
  | Some (_, remain) => remain
  | None => []
  end.

(** The samples a worker still has to put, and the remainders it still has
    to record. *)
Definition wpending (w : WState) : list Sample :=
  match w with
  | WPut pending _ => pending
  | _ => []
  end.

Definition wremain (w : WState) : list Remainder :=
  match w with
  | WPut _ remain => remain
  | _ => []
  end.

(** 1 for a worker that has left its loop, 0 for the others. *)
Definition wposted (w : WState) : nat :=
  match w with
  | WDone => 1
  | _ => 0
  end.

(** The number of workers that have left their loop. *)
Definition posted (ws : list WState) : nat := sum_list (wposted <$> ws).

Definition wcrashed (w : WState) : Prop :=
  match w with
  | WCrashed => True
  | _ => False
  end.

(** The samples the batcher holds. *)
Definition bsamples (b : BState) : list Sample :=
  match b with
  | BRun acc => acc
  | BEmit data _ => data
  | _ => []
  end.

(** [_get_samples] has returned: the batcher takes the merged stream of
    samples as exhausted. *)
Definition stream_ended (b : BState) : bool :=
  match b with
  | BRun _ => false
  | BEmit _ ended => ended
  | BFinal | BDone => true
  | BCrashed ended => ended
  end.

Definition bcrashed (b : BState) : Prop :=
  match b with
  | BCrashed _ => True
  | _ => False
  end.

Definition is_bdone (b : BState) : bool :=
  match b with
  | BDone => true
  | _ => false
  end.

(** No thread has died. *)
Definition healthy (s : State) : Prop :=
  Forall (λ w, ¬ wcrashed w) (workers s) ∧ ¬ bcrashed (batcher s).

(** The batches put on the batch queue so far, in order. *)
Definition emitted (s : State) : list Batch :=
  consumed s ++ payloads (items (batches s)).

(** The merged stream: the samples put on the sample queue so far, in
    order, as they are now (in a batch, with the batcher, or queued). *)
Definition stream (s : State) : list Sample :=
  mjoin (fst <$> emitted s) ++ bsamples (batcher s)
    ++ payloads (items (samples s)).

Definition vstream (s : State) : list (Meta * list nat * list elt) :=
  value_of <$> stream s.

(** The samples the workers hold, and those the intake still stands for. *)
Definition pendings (s : State) : list Sample :=
  mjoin (wpending <$> workers s).

Definition intake_samples (s : State) : list Sample :=
  mjoin (gen_samples <$> items (regions s)).

(** Every sample of the run: put already, held by a worker, or still to be
    generated. *)
Definition all_samples (s : State) : list Sample :=
  stream s ++ pendings s ++ intake_samples s.

(** Every remainder of the run: recorded already, held by a worker, or
    still to be generated. *)
Definition all_remainders (s : State) : list Remainder :=
  remainders s ++ mjoin (wremain <$> workers s)
    ++ mjoin (gen_remain <$> items (regions s)).

(** What has become of a region: it waits on the intake; or a worker is
    putting its samples, and those it has put are in the stream in the order
    of their generation; or all its samples are. *)
Definition region_progress (s : State) (r : Region) : Prop :=
  r ∈ items (regions s) ∨
  (∃ i pending remain sent,
     workers s !! i = Some (WPut pending remain) ∧
     value_of <$> gen_samples r = sent ++ (value_of <$> pending) ∧
     sent `sublist_of` vstream s) ∨
  value_of <$> gen_samples r `sublist_of` vstream s.

(** What the batcher holds, by its state, when [batch_size] is positive. *)
Definition batcher_sizes (s : State) : Prop :=
  match batcher s with
  | BRun acc =>
      length acc < batch_size ∧
      Forall (λ g, length g = batch_size) (emitted s).*1
  | BEmit data false =>
      length data = batch_size ∧
      Forall (λ g, length g = batch_size) (emitted s).*1
  | BEmit data true =>
      1 ≤ length data < batch_size ∧
      Forall (λ g, length g = batch_size) (emitted s).*1
  | _ => True
  end.

(** A bound on the number of steps the threads can still make. *)
Definition region_fuel (r : Region) : nat := 4 * length (gen_samples r) + 2.

Definition wfuel (w : WState) : nat :=
  match w with
  | WLoop => 7
  | WPut pending _ => 4 * length pending + 8
  | WStop => 6
  | WDone | WCrashed => 0
  end.

Definition mfuel (m : Msg Sample) : nat :=
  match m with
  | Payload _ => 3
  | StopIteration => 5
  end.

Definition bfuel (b : BState) : nat :=
  match b with
  | BRun _ => 0
  | BEmit _ false => 2
  | BEmit _ true => 4
  | BFinal => 2
  | BDone | BCrashed _ => 0
  end.

Definition fuel (s : State) : nat :=
  sum_list (region_fuel <$> items (regions s))
  + sum_list (wfuel <$> workers s)
  + sum_list (mfuel <$> items (samples s))
  + bfuel (batcher s)
  + length (items (batches s)).
End loader.
Arguments Sample : clear implicits.
Abbreviation Batch Meta elt := (list (Sample Meta elt) * ndarray elt)%type.
Arguments WState : clear implicits.
Arguments BState : clear implicits.
Arguments State : clear implicits.

(** [DataLoader.__init__]: the state in which no thread has moved yet. *)
Definition init {Region Remainder Meta elt : Type}
    (regs : list Region) (batch_size batch_cache_size bam_workers : nat)
  : State Region Remainder Meta elt :=
  let sample_cache_size := batch_cache_size * batch_size in
  let batch_cache_size := 0 in
  mk_state (mk_queue 0 regs) (new sample_cache_size) (new batch_cache_size)
           [] (replicate bam_workers WLoop) 0 (BRun []) [] false.
End Loader.

(** ** [run_prediction] and [predict] *)

Module Driver.
Import Loader.

(** The loader [run_prediction] constructs (lines 25-30).  [bam_workers]
    is the parameter of [run_prediction]; the call passes the literal 8
    for [batch_cache_size] and the literal 2 for [bam_workers]. *)
Definition run_prediction_loader {Region Remainder Meta elt : Type}
    (regs : list Region) (batch_size : nat) (bam_workers : nat)
  : State Region Remainder Meta elt :=
  init regs batch_size 8 2.

(** Python's [str] on an integer. *)
Definition str (z : Z) : string := NilZero.string_of_int (Z.to_int z).

Inductive Level := WARNING | INFO.

(** The thread configuration of [predict] (lines 98-114): [threads] is
    [args.threads], [n_gpu] the length of
    [tf.config.list_physical_devices('GPU')], [environ] is [os.environ].
    The result: [args.threads], [os.environ] and what was logged. *)
Definition predict_threads (threads : Z) (n_gpu : nat)
    (environ : gmap string string)
  : Z * gmap string string * list (Level * string) :=
  let '(threads, logged) :=
    if decide (2 < threads)%Z
    then (2%Z,
          (WARNING, "Reducing threads to 2, anymore is a waste.")
          :: (if decide (n_gpu = 0)
              then [(INFO, "It looks like you are running medaka without a GPU and attempted to set a high number of threads. We have scaled this down to an optimal number. If you wish to improve performance please see https://nanoporetech.github.io/medaka/installation.html#improving-parallelism.")]
              else []))
    else (threads, []) in
  let logged :=
    logged ++ [(INFO, "Setting tensorflow inter/intra-op threads to "
                        +:+ str threads +:+ "/1.")] in
  let environ := <["TF_NUM_INTEROP_THREADS" := str threads]> environ in
  let environ := <["TF_NUM_INTRAOP_THREADS" := str 1]> environ in
  let environ := <["OMP_NUM_THREADS" := str 1]> environ in
  (threads, environ, logged).

(** [logging.DEBUG]. *)
Definition DEBUG : Z := 10.

(** Every assignment [predict] makes to [os.environ] (lines 88-114):
    [logger_level] is the level of the logger of the package; above
    [logging.DEBUG], [TF_CPP_MIN_LOG_LEVEL] is set before the thread
    configuration.  The result is that of [predict_threads]. *)
Definition predict_environ (logger_level threads : Z) (n_gpu : nat)
    (environ : gmap string string)
  : Z * gmap string string * list (Level * string) :=
  let environ :=
    if decide (DEBUG < logger_level)%Z
    then <["TF_CPP_MIN_LOG_LEVEL" := "2"]> environ
    else environ in
  predict_threads threads n_gpu environ.
End Driver.

(** ** [_get_samples] and [_batch_worker], read sequentially *)

Module Generators.
Import NdArray Grouper Loader.

(** [_get_samples] (lines 318-335) as a function of the items it pops from
    the sample queue, in the order it pops them: the samples it yields, and
    whether it has returned.  [nstops] is its counter (0 at the call).  With
    no item left it polls ("more items may come") and has not returned. *)
Fixpoint get_samples {A : Type} (bam_workers nstops : nat)
    (popped : list (Msg A)) : list A * bool :=
  match popped with
  | [] => ([], false)
  | StopIteration :: rest =>
      let nstops := S nstops in
      if decide (nstops = bam_workers) then ([], true)
      else get_samples bam_workers nstops rest
  | Payload res :: rest =>
      let '(yielded, returned) := get_samples bam_workers nstops rest in
      (res :: yielded, returned)
  end.

(** [_batch_worker] (lines 337-350) on a generator that yields [gen] and
    then returns: what it puts on the batch queue, [None] when [np.stack]
    raises on one of the groups. *)
Definition batch_worker_puts {Meta elt : Type} (batch_size : nat)
    (gen : list (Sample Meta elt)) : option (list (Msg (Batch Meta elt))) :=
  bl ← mapM make_batch (grouper gen batch_size);
  Some ((Payload <$> bl) ++ [StopIteration]).
End Generators.

(** ** The loop of [run_prediction] *)

Module Writer.
Import NdArray Loader.
Section writer.
Context {Meta elt Prob : Type}.
(** [model.predict_on_batch]: the rows of the array of class
    probabilities it returns. *)
Context (predict_on_batch : ndarray elt → list Prob).
Context (save_features : bool).

(** The body of the loop of [run_prediction] for one batch (lines 48-54).
    [zip] stops with the shortest of [data], [class_probs] and the rows of
    [x_data].  The result: for each turn of the inner loop, the sample and
    the two arguments of [sample.amend(label_probs=prob, features=features)],
    whose result is handed to [ds.write_sample]. *)
Definition write_batch (b : Batch Meta elt)
  : list (Sample Meta elt * Prob * option (ndarray elt)) :=
  let '(data, x_data) := b in
  let class_probs := predict_on_batch x_data in
  (λ '(sample, prob, feat),
     let features := if save_features then Some feat else None in
     (sample, prob, features))
  <$> zip (zip data class_probs) (iter x_data).

(** All the turns of the loop over the batches the loader has returned. *)
Definition written (bl : list (Batch Meta elt))
  : list (Sample Meta elt * Prob * option (ndarray elt)) :=
  mjoin (write_batch <$> bl).
End writer.
End Writer.

(** ** The regions [predict] hands to [run_prediction] *)

Module Regions.
Section regions.
Context {Region : Type}.
(** [Region.size] and [Region.split(size, overlap=..., fixed_size=False)]
    of medaka/common.py, whatever they compute. *)
Context (size : Region → Z) (split : Region → Z → Z → list Region).

(** Lines 145-156 of [predict]: a region longer than [args.bam_chunk] is
    replaced by its pieces. *)
Definition split_regions (bam_chunk chunk_ovlp : Z)
    (bam_regions : list Region) : list Region :=
  foldl (λ regions region,
           let regs :=
             if decide (bam_chunk < size region)%Z
             then split region bam_chunk chunk_ovlp
             else [region] in
           regions ++ regs)
        [] bam_regions.
End regions.
End Regions.

(** ** A small run, for the examples *)

Module Scenario.
Import NdArray PyQueue Loader.

(** A pileup matrix of two chunks of two columns. *)
Definition pileup : list Z := [10; 11; 12; 13]%Z.

(** The sample [m]: a view on the pileup at offset [o]. *)
Definition chunk (m o : nat) : Sample nat Z :=
  mk_sample m (mk_ndarray pileup o [2]).

(** Region 0 gives two samples; region 1 is too short and is reported as a
    remainder; on region 2 the generator raises. *)
Definition generate (r : nat) : option (list (Sample nat Z) * list nat) :=
  match r with
  | 0 => Some ([chunk 0 0; chunk 1 2], [])
  | 1 => Some ([], [1])
  | 2 => None
  | _ => Some ([], [])
  end.

Definition start (regs : list nat) (batch_size bam_workers : nat)
  : State nat nat nat Z :=
  init regs batch_size 8 bam_workers.

(** The state a schedule leads to (the initial state if it cannot run). *)
Definition state_after (regs : list nat) (batch_size bam_workers : nat)
    (sched : list Tid) : State nat nat nat Z :=
  default (start regs batch_size bam_workers)
    (run generate batch_size bam_workers sched
       (start regs batch_size bam_workers)).

(** Regions 0 and 1, two workers, batches of two: a run to the end. *)
Definition full_run : list Tid :=
  [Worker 0; Worker 1; Worker 0; Worker 0; Worker 0; Worker 1;
   Worker 0; Worker 0; Worker 1; Worker 1;
   Batcher; Batcher; Batcher; Batcher; Batcher; Batcher;
   Consumer; Consumer].

(** Region 0, one worker, batches of one: the batcher runs ahead of the
    consumer. *)
Definition batcher_ahead : list Tid :=
  [Worker 0; Worker 0; Worker 0; Batcher; Batcher; Batcher; Batcher].

End Scenario.

(** ** A run with pileups of different widths *)

Module Mixed.
Import NdArray PyQueue Loader Scenario.

(** A sample of one column. *)
Definition short_chunk (m o : nat) : Sample nat Z :=
  mk_sample m (mk_ndarray pileup o [1]).

(** Region 0 gives a sample of two columns and one of one column, and
    reports itself as a remainder. *)
Definition generate_mixed (r : nat)
  : option (list (Sample nat Z) * list (nat * nat)) :=
  match r with
  | 0 => Some ([chunk 0 0; short_chunk 1 2], [(0, 7)])
  | _ => Some ([], [])
  end.

Definition start_mixed (batch_size : nat) : State nat (nat * nat) nat Z :=
  init [0] batch_size 8 1.

Definition mixed_after (batch_size : nat) (sched : list Tid)
  : State nat (nat * nat) nat Z :=
  default (start_mixed batch_size)
    (run generate_mixed batch_size 1 sched (start_mixed batch_size)).

(** The worker puts the two samples, the batcher pops them. *)
Definition group_collected : list Tid :=
  [Worker 0; Worker 0; Worker 0; Batcher; Batcher].

(** Batches of one: the worker puts the two samples and its marker. *)
Definition worker_done : list Tid :=
  [Worker 0; Worker 0; Worker 0; Worker 0; Worker 0; Worker 0].

(** The class probabilities of a batch: one row per row of the batch. *)
Definition model (x_data : ndarray Z) : list nat :=
  seq 0 (length (iter x_data)).

(** A sample cache of one batch of one sample: the worker has put the
    first sample of region 0 and holds the second. *)
Definition tight : State nat nat nat Z := init [0] 1 1 1.

Definition worker_waiting : State nat nat nat Z :=
  default tight (run generate 1 1 [Worker 0; Worker 0] tight).

(** Regions as lengths, cut into a piece of the size asked for and the
    rest. *)
Definition cut (region : nat) (size overlap : Z) : list nat :=
  [Z.to_nat size; region - Z.to_nat size].
End Mixed.

(** * Facts *)

(** ** Stacking *)

Module NdArrayFacts.
Import NdArray.
Section facts.
Context {elt : Type}.
Implicit Types (a b : ndarray elt) (arrs : list (ndarray elt)).

Lemma length_contents a : wf a → length (contents a) = size_of (shape a).
Proof.
  unfold wf, contents. intros Hwf.
  rewrite length_take, length_drop. lia.
Qed.

(** The [i]-th block of [n] elements of a concatenation of blocks of
    length [n]. *)
Lemma join_block {A} (n : nat) (ls : list (list A)) i l :
  Forall (λ l, length l = n) ls →
  ls !! i = Some l →
  take n (drop (i * n) (mjoin ls)) = l.
Proof.
  intros Hlen. revert i. induction Hlen as [|l0 ls Hl0 Hls IH]; intros i Hi.
  - done.
  - destruct i as [|i]; simpl in *.
    + injection Hi as ->. by apply take_app_length'.
    + rewrite drop_app_add' by done. by apply IH.
Qed.

Lemma stack_inv arrs batch :
  stack arrs = Some batch →
  ∃ a rest, arrs = a :: rest ∧ Forall (λ b, shape b = shape a) arrs ∧
    batch = mk_ndarray (mjoin (contents <$> arrs)) 0
                       (length arrs :: shape a).
Proof.
  unfold stack. destruct arrs as [|a rest]; [done|].
  destruct (forallb _ rest) eqn:Hall; [|done].
  intros [= <-]. exists a, rest. split_and!; [done| |done].
  constructor; [done|].
  apply Is_true_eq_left, forallb_True in Hall.
  eapply Forall_impl; [exact Hall|].
  intros b Hb. by apply bool_decide_unpack in Hb.
Qed.

Lemma stack_uniform arrs sh :
  arrs ≠ [] →
  Forall (λ b, shape b = sh) arrs →
  stack arrs = Some (mk_ndarray (mjoin (contents <$> arrs)) 0
                                (length arrs :: sh)).
Proof.
  destruct arrs as [|a rest]; [done|]. intros _ Hall.
  apply Forall_cons in Hall as [Ha Hrest]. unfold stack.
  assert (forallb (λ b, bool_decide (shape b = shape a)) rest = true) as ->.
  { apply Is_true_eq_true, forallb_True.
    eapply Forall_impl; [exact Hrest|].
    intros b Hb. apply bool_decide_pack. congruence. }
  by rewrite Ha.
Qed.

(** The slices of a stacked array hold what the stacked arrays held. *)
Lemma stack_slice arrs sh i a :
  Forall (λ b, wf b ∧ shape b = sh) arrs →
  arrs !! i = Some a →
  contents (mk_ndarray (mjoin (contents <$> arrs)) (0 + i * size_of sh) sh)
  = contents a.
Proof.
  intros Hall Hi. unfold contents at 1. simpl.
  apply join_block.
  - apply Forall_fmap. eapply Forall_impl; [exact Hall|].
    intros b [Hwf Hsh]. simpl. rewrite length_contents by done. by rewrite Hsh.
  - by rewrite list_lookup_fmap, Hi.
Qed.
End facts.
End NdArrayFacts.

(** ** Grouping *)

Module GrouperFacts.
Import Grouper.
Section facts.
Context {A : Type}.
Implicit Types (acc gen : list A) (gs : list (list A)).

Lemma grouper_next_inl bs acc x data :
  grouper_next bs acc x = inl data → data = acc ++ [x] ∧ length data = bs.
Proof. unfold grouper_next. case_decide; naive_solver. Qed.

Lemma grouper_next_inr bs acc x acc' :
  grouper_next bs acc x = inr acc' → acc' = acc ++ [x] ∧ length acc' ≠ bs.
Proof. unfold grouper_next. case_decide; naive_solver. Qed.

(** Nothing is added and nothing is lost, and the order is kept. *)
Lemma join_grouper_from bs acc gen :
  mjoin (grouper_from bs acc gen) = acc ++ gen.
Proof.
  revert acc. induction gen as [|x gen IH]; intros acc; simpl.
  - destruct acc; simpl; by rewrite ?app_nil_r.
  - destruct (grouper_next bs acc x) as [data|acc'] eqn:Hn.
    + apply grouper_next_inl in Hn as [-> _]. simpl. rewrite IH.
      by rewrite <-app_assoc.
    + apply grouper_next_inr in Hn as [-> _]. rewrite IH.
      by rewrite <-app_assoc.
Qed.

Lemma grouped_from bs acc gen :
  length acc < bs → grouped bs (grouper_from bs acc gen).
Proof.
  revert acc. induction gen as [|x gen IH]; intros acc Hacc; simpl.
  - exists [], (grouper_end acc). split_and!; [done|constructor|].
    destruct acc as [|a acc]; [by left|right].
    exists (a :: acc). simpl in *. split; [done|lia].
  - destruct (grouper_next bs acc x) as [data|acc'] eqn:Hn.
    + apply grouper_next_inl in Hn as [-> Hlen].
      destruct (IH []) as (full & rest & -> & Hfull & Hrest);
        [simpl; lia|].
      exists ((acc ++ [x]) :: full), rest. split_and!; [done| |done].
      by constructor.
    + apply grouper_next_inr in Hn as [-> Hlen]. apply IH.
      rewrite length_app in *. simpl in *. lia.
Qed.

(** The scenario of the spec: seven samples in batches of five. *)
Example grouper_seven_by_five :
  grouper [1; 2; 3; 4; 5; 6; 7] 5 = [[1; 2; 3; 4; 5]; [6; 7]].
Proof. reflexivity. Qed.

Lemma grouped_lookup bs gs i g :
  0 < bs → grouped bs gs → gs !! i = Some g →
  1 ≤ length g ≤ bs ∧ (S i < length gs → length g = bs).
Proof.
  intros Hbs (full & rest & -> & Hfull & Hrest) Hi.
  apply lookup_app_Some in Hi as [Hi|[Hge Hi]].
  - pose proof (Forall_lookup_1 _ _ _ _ Hfull Hi) as Hg. simpl in Hg. lia.
  - destruct Hrest as [->|(g' & -> & Hg')]; [done|].
    apply list_lookup_singleton_Some in Hi as [Hi <-].
    split; [lia|]. rewrite length_app. simpl. lia.
Qed.
End facts.
End GrouperFacts.

(** ** Lists and queues *)

Module ListFacts.
Section facts.
Context {A B : Type}.

Lemma sum_list_fmap_insert (f : A → nat) (l : list A) i x y :
  l !! i = Some x →
  sum_list (f <$> <[i:=y]> l) + f x = sum_list (f <$> l) + f y.
Proof.
  revert i. induction l as [|a l IH]; intros [|i] Hi; simplify_eq/=.
  - lia.
  - specialize (IH _ Hi). lia.
Qed.

Lemma join_fmap_insert (f : A → list B) (l : list A) i x y :
  l !! i = Some x →
  mjoin (f <$> <[i:=y]> l) ++ f x ≡ₚ mjoin (f <$> l) ++ f y.
Proof.
  revert i. induction l as [|a l IH]; intros [|i] Hi; simplify_eq/=.
  - rewrite (Permutation_app_comm (f y)), (Permutation_app_comm (f x)).
    rewrite <-!app_assoc. f_equiv. apply Permutation_app_comm.
  - rewrite <-!app_assoc. f_equiv. by apply IH.
Qed.

Lemma join_fmap_insert_same (f : A → list B) (l : list A) i x y :
  l !! i = Some x → f x = f y →
  mjoin (f <$> <[i:=y]> l) = mjoin (f <$> l).
Proof.
  revert i. induction l as [|a l IH]; intros [|i] Hi Hxy; simplify_eq/=.
  - by rewrite Hxy.
  - f_equal. by eapply IH.
Qed.

Lemma join_fmap_insert_cons (f : A → list B) (l : list A) i x y b :
  l !! i = Some x → f x = b :: f y →
  b :: mjoin (f <$> <[i:=y]> l) ≡ₚ mjoin (f <$> l).
Proof.
  revert i. induction l as [|a l IH]; intros [|i] Hi Hxy; simplify_eq/=.
  - by rewrite Hxy.
  - rewrite <-(IH _ Hi Hxy). by rewrite Permutation_middle.
Qed.

Lemma join_fmap_insert_fresh (f : A → list B) (l : list A) i x y :
  l !! i = Some x → f x = [] →
  mjoin (f <$> <[i:=y]> l) ≡ₚ f y ++ mjoin (f <$> l).
Proof.
  intros Hi Hx. pose proof (join_fmap_insert f l i x y Hi) as Hp.
  rewrite Hx, app_nil_r in Hp. rewrite Hp. apply Permutation_app_comm.
Qed.

Lemma elem_of_join_insert (f : A → list B) (l : list A) i y b :
  b ∈ mjoin (f <$> <[i:=y]> l) → b ∈ f y ∨ b ∈ mjoin (f <$> l).
Proof.
  revert i. induction l as [|a l IH]; intros [|i]; simpl; try by right.
  - rewrite !elem_of_app. intros [?|?]; auto.
  - rewrite !elem_of_app. intros [?|[?|?]%IH]; auto.
Qed.

Lemma elem_of_join_lookup (f : A → list B) (l : list A) i x b :
  l !! i = Some x → b ∈ f x → b ∈ mjoin (f <$> l).
Proof.
  revert i. induction l as [|a l IH]; intros [|i] Hi Hb; simplify_eq/=;
    rewrite elem_of_app; [by left|right; by eapply IH].
Qed.
End facts.
End ListFacts.

Module QueueFacts.
Import PyQueue Loader.
Section facts.
Context {A : Type}.
Implicit Types (q : Queue A) (l : list (Msg A)).

Lemma full_false q :
  full q = false ↔ maxsize q = 0 ∨ qsize q < maxsize q.
Proof.
  unfold full. rewrite andb_false_iff, !bool_decide_eq_false. lia.
Qed.

Lemma full_unbounded q : maxsize q = 0 → full q = false.
Proof. intros. apply full_false. by left. Qed.

Lemma full_empty q : items q = [] → full q = false.
Proof.
  intros Hq. apply full_false. unfold qsize. rewrite Hq. simpl. lia.
Qed.

Lemma stops_app l1 l2 : stops (l1 ++ l2) = stops l1 + stops l2.
Proof. unfold stops. by rewrite filter_app, length_app. Qed.

Lemma stops_cons_stop l : stops (StopIteration :: l) = S (stops l).
Proof. done. Qed.

Lemma stops_cons_payload (a : A) l : stops (Payload a :: l) = stops l.
Proof. done. Qed.

Lemma stops_snoc_stop l : stops (l ++ [StopIteration]) = S (stops l).
Proof. rewrite stops_app. simpl. unfold stops at 2. simpl. lia. Qed.

Lemma stops_snoc_payload (a : A) l : stops (l ++ [Payload a]) = stops l.
Proof. rewrite stops_app. unfold stops at 2. simpl. lia. Qed.

Lemma payloads_app l1 l2 : payloads (l1 ++ l2) = payloads l1 ++ payloads l2.
Proof. apply omap_app. Qed.

Lemma payloads_snoc_stop l : payloads (l ++ [StopIteration]) = payloads l.
Proof. rewrite payloads_app. simpl. by rewrite app_nil_r. Qed.

Lemma payloads_snoc_payload (a : A) l :
  payloads (l ++ [Payload a]) = payloads l ++ [a].
Proof. by rewrite payloads_app. Qed.

End facts.
End QueueFacts.

(** ** Batches *)

Module BatchFacts.
Import NdArray Loader NdArrayFacts.
Section facts.
Context {Meta elt : Type}.
Implicit Types (data out : list (Sample Meta elt)) (batch : ndarray elt).

Lemma make_batch_inv data out batch :
  make_batch data = Some (out, batch) →
  ∃ sh,
    Forall (λ s, shape (features s) = sh) data ∧
    batch = mk_ndarray (mjoin (contents <$> (features <$> data))) 0
                       (length data :: sh) ∧
    out = zip_with (λ feat sample, amend sample feat) (iter batch) data.
Proof.
  unfold make_batch. intros Hmake.
  destruct (stack (features <$> data)) as [b|] eqn:Hstack; simplify_eq/=.
  apply stack_inv in Hstack as (a & rest & Harrs & Hall & ->).
  exists (shape a). split_and!; [|by rewrite length_fmap|done].
  by apply Forall_fmap in Hall.
Qed.

Lemma make_batch_uniform data sh :
  data ≠ [] →
  Forall (λ s, shape (features s) = sh) data →
  is_Some (make_batch data).
Proof.
  intros Hne Hall. unfold make_batch.
  rewrite (stack_uniform (features <$> data) sh); [done| |].
  - by destruct data.
  - by apply Forall_fmap.
Qed.

(** The [i]-th sample of a batch is the [i]-th sample of the group, with
    its features viewing the [i]-th slice of the stacked array. *)
Lemma make_batch_lookup data out batch i s :
  make_batch data = Some (out, batch) →
  data !! i = Some s →
  ∃ v, index batch i = Some v ∧ out !! i = Some (amend s v) ∧
       buf v = buf batch ∧ off v = i * size_of (shape (features s)) ∧
       shape v = shape (features s).
Proof.
  intros (sh & Hall & -> & ->)%make_batch_inv Hi.
  pose proof (lookup_lt_Some _ _ _ Hi) as Hlt.
  pose proof (Forall_lookup_1 _ _ _ _ Hall Hi) as Hsh. simpl in Hsh.
  eexists. unfold index, iter. simpl. rewrite decide_True by done.
  split_and!; [done| |done|by rewrite Hsh|done].
  rewrite lookup_zip_with, list_lookup_fmap, lookup_seq_lt, Hi by done.
  done.
Qed.

Lemma make_batch_length data out batch :
  make_batch data = Some (out, batch) → length out = length data.
Proof.
  intros (sh & Hall & -> & ->)%make_batch_inv.
  rewrite length_zip_with. unfold iter. simpl.
  rewrite length_fmap, length_seq. lia.
Qed.

(** Remaking the samples changes the buffer their features live in, and
    nothing else. *)
Lemma make_batch_values data out batch :
  Forall wf_sample data →
  make_batch data = Some (out, batch) →
  value_of <$> out = value_of <$> data.
Proof.
  intros Hwf Hmake. apply list_eq. intros i.
  rewrite !list_lookup_fmap.
  destruct (data !! i) as [s|] eqn:Hi; simpl.
  - destruct (make_batch_lookup _ _ _ _ _ Hmake Hi)
      as (v & _ & -> & Hbuf & Hoff & Hshape). simpl. f_equal.
    unfold value_of. simpl. rewrite Hshape. f_equal.
    apply make_batch_inv in Hmake as (sh & Hall & -> & _).
    destruct v as [vbuf voff vshape]. simpl in *. subst.
    pose proof (Forall_lookup_1 _ _ _ _ Hall Hi) as Hsh. simpl in Hsh.
    rewrite Hsh. apply (stack_slice (features <$> data) sh i).
    + apply Forall_fmap. apply Forall_lookup. intros j x Hj. simpl.
      split; [by apply (Forall_lookup_1 _ _ _ _ Hwf Hj)|].
      by apply (Forall_lookup_1 _ _ _ _ Hall Hj).
    + by rewrite list_lookup_fmap, Hi.
  - apply lookup_ge_None in Hi.
    rewrite (lookup_ge_None_2 out); [done|].
    by rewrite (make_batch_length _ _ _ Hmake).
Qed.

Lemma make_batch_meta data out batch :
  make_batch data = Some (out, batch) → meta <$> out = meta <$> data.
Proof.
  intros Hmake. apply list_eq. intros i. rewrite !list_lookup_fmap.
  destruct (data !! i) as [s|] eqn:Hi; simpl.
  - by destruct (make_batch_lookup _ _ _ _ _ Hmake Hi) as (v & _ & -> & _).
  - apply lookup_ge_None in Hi.
    rewrite (lookup_ge_None_2 out); [done|].
    by rewrite (make_batch_length _ _ _ Hmake).
Qed.

(** C4. For a group of k samples whose feature matrices share one shape,
    the stacked array has shape (k, feature shape), its slice at index i
    holds the elements of the feature matrix of sample i, and sample i of
    the emitted list is sample i of the group amended with that slice, a
    view on the buffer of the stacked array. *)
Theorem make_batch_stacks data sh :
  data ≠ [] →
  Forall (λ s, wf_sample s ∧ shape (features s) = sh) data →
  ∃ out batch,
    make_batch data = Some (out, batch) ∧
    shape batch = length data :: sh ∧
    length out = length data ∧
    ∀ i s, data !! i = Some s →
      ∃ v, index batch i = Some v ∧
           buf v = buf batch ∧ shape v = sh ∧
           contents v = contents (features s) ∧
           out !! i = Some (amend s v).
Proof.
  intros Hne Hall.
  assert (Forall wf_sample data) as Hwf
    by (eapply Forall_impl; [exact Hall|]; by intros s [? _]).
  assert (Forall (λ s, shape (features s) = sh) data) as Hsh
    by (eapply Forall_impl; [exact Hall|]; by intros s [_ ?]).
  destruct (make_batch_uniform data sh Hne Hsh) as [[out batch] Hmake].
  exists out, batch. split_and!; [done| |by eapply make_batch_length|].
  - destruct (make_batch_inv _ _ _ Hmake) as (sh' & Hall' & -> & _). simpl.
    destruct data as [|s data]; [done|].
    apply Forall_cons in Hall' as [<- _]. apply Forall_cons in Hsh as [<- _].
    done.
  - intros i s Hi.
    destruct (make_batch_lookup _ _ _ _ _ Hmake Hi)
      as (v & Hv & Hout & Hbuf & Hoff & Hshape).
    pose proof (Forall_lookup_1 _ _ _ _ Hsh Hi) as Hs. simpl in Hs.
    exists v. split_and!; [done|done|congruence| |done].
    pose proof (make_batch_values _ _ _ Hwf Hmake) as Hvalues.
    apply (f_equal (.!! i)) in Hvalues.
    rewrite !list_lookup_fmap, Hout, Hi in Hvalues. simpl in Hvalues.
    by injection Hvalues.
Qed.
End facts.
End BatchFacts.

(** ** The pipeline *)

Module LoaderFacts.
Import NdArray PyQueue Grouper Loader.
Import NdArrayFacts GrouperFacts ListFacts QueueFacts BatchFacts.

Section steps.
Context {Region Remainder Meta elt : Type}.
Context (run_region :
  Region → option (list (Sample Meta elt) * list Remainder)).
Context (batch_size bam_workers : nat).

#[local] Abbreviation State := (State Region Remainder Meta elt).
#[local] Abbreviation WState := (WState Remainder Meta elt).
#[local] Abbreviation BState := (BState Meta elt).
#[local] Abbreviation exec := (exec run_region batch_size bam_workers).
#[local] Abbreviation run := (run run_region batch_size bam_workers).
#[local] Abbreviation reachable :=
  (reachable run_region batch_size bam_workers).
#[local] Abbreviation gen_samples := (gen_samples run_region).
#[local] Abbreviation gen_remain := (gen_remain run_region).
#[local] Abbreviation fuel := (fuel run_region).
#[local] Abbreviation intake_samples := (intake_samples run_region).
#[local] Abbreviation all_samples := (all_samples run_region).
#[local] Abbreviation all_remainders := (all_remainders run_region).
#[local] Abbreviation region_progress := (region_progress run_region).
#[local] Abbreviation batcher_sizes := (batcher_sizes batch_size).
#[local] Abbreviation transition :=
  (transition run_region batch_size bam_workers).

Lemma exec_transition t s s' : exec t s = Some s' → transition s t s'.
Proof.
  intros H. destruct t as [i| |]; simpl in H.
  - unfold region_worker, put, get_nowait in H.
    repeat (simplify_option_eq; try case_match);
      by econstructor; eauto.
  - unfold batch_worker, put, get_nowait in H.
    destruct (batcher s) as [acc|data ended| | |ended] eqn:Hb; [| | |done..].
    + destruct (items (samples s)) as [|[x|] rest] eqn:Hi; [done|..].
      * injection H as <-. by eapply t_pop_sample.
      * case_decide; injection H as <-;
          [by eapply t_pop_last_stop|by eapply t_pop_stop].
    + destruct (make_batch data) as [b|] eqn:Hm.
      * destruct (full (batches s)) eqn:Hf; [done|]. injection H as <-.
        by eapply t_emit.
      * injection H as <-. by eapply t_stack_error.
    + destruct (full (batches s)) eqn:Hf; [done|]. injection H as <-.
      by eapply t_final.
  - unfold next, get_nowait in H.
    destruct (finished s) eqn:Hfin; [done|].
    destruct (items (batches s)) as [|[b|] rest] eqn:Hi; [done|..];
      injection H as <-; by econstructor.
Qed.

Ltac solve_exec :=
  simpl; unfold region_worker, batch_worker, next, put, get_nowait;
  repeat (match goal with
          | H : ?l = _ |- context [?l] => rewrite H
          end; simpl);
  try done; by case_decide.

Lemma transition_exec t s s' : transition s t s' → exec t s = Some s'.
Proof. destruct 1; solve_exec. Qed.

Lemma run_app sched1 sched2 s :
  run (sched1 ++ sched2) s = run sched1 s ≫= run sched2.
Proof.
  revert s. induction sched1 as [|t sched1 IH]; intros s; simpl; [done|].
  destruct (exec t s) as [s1|]; simpl; [apply IH|done].
Qed.

Lemma reachable_refl s : reachable s s.
Proof. by exists []. Qed.

Lemma reachable_step s0 s t s' :
  reachable s0 s → exec t s = Some s' → reachable s0 s'.
Proof.
  intros [sched Hrun] Hstep. exists (sched ++ [t]).
  rewrite run_app, Hrun. simpl. by rewrite Hstep.
Qed.

(** Induction on the states a schedule reaches. *)
Lemma reachable_ind (P : State → Prop) s0 :
  P s0 →
  (∀ t s s', reachable s0 s → P s → transition s t s' → P s') →
  ∀ s, reachable s0 s → P s.
Proof.
  intros Hinit Hstep s [sched Hrun]. revert s Hrun.
  induction sched as [|t sched IH] using rev_ind; intros s Hrun.
  - by injection Hrun as <-.
  - rewrite run_app in Hrun.
    destruct (run sched s0) as [s1|] eqn:Hs1; [|done]. simpl in Hrun.
    destruct (exec t s1) as [s2|] eqn:Hs2; [|done]. injection Hrun as <-.
    eapply Hstep; [by exists sched|by apply IH|by eapply exec_transition].
Qed.
(** *** Counting the workers that have left their loop *)

Lemma wposted_le (w : WState) : wposted w ≤ 1.
Proof. destruct w; simpl; lia. Qed.

Lemma posted_le (ws : list WState) : posted ws ≤ length ws.
Proof.
  unfold posted. induction ws as [|w ws IH]; csimpl; [done|].
  pose proof (wposted_le w). lia.
Qed.

Lemma posted_all (ws : list WState) :
  posted ws = length ws → Forall (λ w, w = WDone) ws.
Proof.
  unfold posted. induction ws as [|w ws IH]; csimpl; intros Hp; [done|].
  pose proof (wposted_le w). pose proof (posted_le ws) as Hle.
  unfold posted in Hle. constructor.
  - destruct w; simpl in *; (done || lia).
  - apply IH. lia.
Qed.

Lemma posted_lt (ws : list WState) :
  posted ws < length ws → ∃ i w, ws !! i = Some w ∧ wposted w = 0.
Proof.
  unfold posted. induction ws as [|w ws IH]; csimpl; intros Hp; [lia|].
  destruct (decide (wposted w = 0)) as [Hw|Hw].
  - by exists 0, w.
  - pose proof (wposted_le w). destruct IH as (i & w' & Hi & Hw'); [lia|].
    by exists (S i), w'.
Qed.

Lemma posted_insert (ws : list WState) i w w' :
  ws !! i = Some w →
  posted (<[i:=w']> ws) + wposted w = posted ws + wposted w'.
Proof. apply sum_list_fmap_insert. Qed.

(** *** Invariants of the pipeline *)

Context (regs : list Region) (batch_cache_size : nat).

#[local] Abbreviation s0 :=
  (init (Remainder:=Remainder) (Meta:=Meta) (elt:=elt)
     regs batch_size batch_cache_size bam_workers).

Ltac invariant :=
  let s1 := fresh in
  let H1 := fresh in
  intros s1 H1; pattern s1; revert s1 H1; apply reachable_ind;
  [ simpl | intros t s s' Hreach IH Hstep; simpl in IH ].

Ltac step_cases Hstep :=
  destruct Hstep as
    [ i Hw Hintake
    | i r rest smpls remain Hw Hintake Hgen
    | i r rest Hw Hintake Hgen
    | i Hw Hfull
    | i x pending remain Hw Hfull
    | i remain Hw
    | acc x rest Hb Hitems
    | acc rest Hb Hitems Hn
    | acc rest Hb Hitems Hn
    | data ended b Hb Hmake Hfull
    | data ended Hb Hmake
    | Hb Hfull
    | b rest Hfin Hitems
    | rest Hfin Hitems ].

(** The threads and the bounds of the queues stay as [__init__] made
    them, and the sample queue respects its bound. *)
Lemma inv_config : ∀ s,
  reachable s0 s →
  length (workers s) = bam_workers ∧
  maxsize (samples s) = batch_cache_size * batch_size ∧
  maxsize (batches s) = 0 ∧
  (0 < maxsize (samples s) → qsize (samples s) ≤ maxsize (samples s)).
Proof.
  invariant.
  - rewrite length_replicate. unfold qsize. simpl. lia.
  - destruct IH as (Hws & Hs & Hbq & Hq).
    step_cases Hstep; simpl; rewrite ?length_insert; split_and!; try done;
      unfold qsize in *; simpl;
      try apply full_false in Hfull; unfold qsize in *;
      try (rewrite Hitems in Hq; simpl in Hq);
      rewrite ?length_app; simpl; lia.
Qed.

(** The intake only shrinks. *)
Lemma inv_intake_suffix : ∀ s,
  reachable s0 s → ∃ taken, regs = taken ++ items (regions s).
Proof.
  invariant.
  - by exists [].
  - destruct IH as [taken Htaken].
    step_cases Hstep; simpl; try (by exists taken);
      rewrite Hintake in Htaken; exists (taken ++ [r]);
      by rewrite <-app_assoc.
Qed.

(** A worker that saw the intake empty has it empty. *)
Lemma inv_intake_empty : ∀ s,
  reachable s0 s →
  ∀ j w, workers s !! j = Some w → w = WStop ∨ w = WDone →
         items (regions s) = [].
Proof.
  invariant.
  - intros j w Hj Hw. apply lookup_replicate in Hj as [-> _].
    by destruct Hw.
  - intros j w Hj Hdone.
    step_cases Hstep; simpl in *; try (by eapply IH);
      apply list_lookup_insert_Some in Hj as [(-> & <- & _)|[Hne Hj]];
      try done; try (by eapply IH); try (by destruct Hdone);
      try (by eapply IH; [exact Hw|auto]);
      (eapply IH in Hj; [|done]); congruence.
Qed.

Lemma posted_replicate n : posted (replicate n (WLoop : WState)) = 0.
Proof. unfold posted. induction n as [|n IH]; csimpl; [done|]. by rewrite IH. Qed.

(** Every marker on the sample queue or counted by the batcher comes from
    one worker that has left its loop, and every such worker has put
    one. *)
Lemma inv_sentinels : ∀ s,
  reachable s0 s →
  stops (items (samples s)) + nstops s = posted (workers s).
Proof.
  invariant.
  - by rewrite posted_replicate.
  - step_cases Hstep; simpl;
      try (rewrite Hitems in IH);
      try (pose proof (posted_insert _ _ _ WStop Hw));
      try (pose proof (posted_insert _ _ _ WDone Hw));
      try (pose proof (posted_insert _ _ _ WLoop Hw));
      try (pose proof (posted_insert _ _ _ WCrashed Hw));
      try (pose proof (posted_insert _ _ _ (WPut smpls remain) Hw));
      try (pose proof (posted_insert _ _ _ (WPut pending remain) Hw));
      rewrite ?stops_snoc_stop, ?stops_snoc_payload in *;
      rewrite ?stops_cons_stop, ?stops_cons_payload in *;
      simpl in *; lia.
Qed.

(** The batcher takes the stream as exhausted when it has counted
    [bam_workers] markers, and not before. *)
Lemma inv_nstops : ∀ s,
  reachable s0 s →
  (stream_ended (batcher s) = true → nstops s = bam_workers ∧ 0 < bam_workers) ∧
  (stream_ended (batcher s) = false → nstops s < bam_workers ∨ bam_workers = 0).
Proof.
  invariant.
  - split; [done|lia].
  - destruct IH as [IHt IHf].
    step_cases Hstep; simpl; try done; rewrite ?Hb in *; simpl in *;
      repeat case_match; simpl; (split; [intros ?|intros ?]);
      try done; try lia; try (by apply IHt); try (by apply IHf).
Qed.

Lemma all_done_insert (ws : list WState) i w w' :
  ws !! i = Some w → Forall (λ w, w = WDone) (<[i:=w']> ws) → w' = WDone.
Proof.
  intros Hi Hall. eapply (Forall_lookup_1 _ _ i) in Hall; [done|].
  apply list_lookup_insert_eq. by eapply lookup_lt_Some.
Qed.

Lemma all_done_lookup (ws : list WState) i w :
  ws !! i = Some w → Forall (λ w, w = WDone) ws → w = WDone.
Proof. intros Hi Hall. by eapply (Forall_lookup_1 _ _ i) in Hall. Qed.

(** A worker puts its marker after its samples: once all the workers have
    left their loops, the last item of the sample queue is a marker. *)
Lemma inv_last_marker : ∀ s,
  reachable s0 s →
  Forall (λ w, w = WDone) (workers s) →
  items (samples s) = [] ∨ ∃ l, items (samples s) = l ++ [StopIteration].
Proof.
  invariant.
  - by left.
  - intros Hall.
    step_cases Hstep; simpl in *;
      try (by apply (all_done_insert _ _ _ _ Hw) in Hall);
      try (by apply IH);
      try (by right; eexists);
      (destruct (IH Hall) as [He|[l Hl]]; [by rewrite Hitems in He|];
       rewrite Hitems in Hl;
       destruct l as [|m l]; simplify_eq/=;
       first [by left|by right; exists l]).
Qed.

(** When the batcher takes the stream as exhausted, it is: the sample
    queue and the intake are empty and every worker has left its loop. *)
Lemma inv_drained : ∀ s,
  reachable s0 s →
  stream_ended (batcher s) = true →
  items (samples s) = [] ∧ Forall (λ w, w = WDone) (workers s) ∧
  items (regions s) = [].
Proof.
  invariant.
  - done.
  - intros Hend.
    step_cases Hstep; simpl in *; rewrite ?Hb in *; simpl in *;
      try (by destruct (IH Hend) as (_ & Hall & _);
           apply (all_done_lookup _ _ _ Hw) in Hall);
      try (by repeat case_match);
      try (by apply IH).
    + pose proof (inv_sentinels s Hreach) as Hs.
      pose proof (inv_config s Hreach) as (Hlen & _).
      pose proof (posted_le (workers s)) as Hle.
      rewrite Hitems, stops_cons_stop in Hs.
      assert (Forall (λ w, w = WDone) (workers s)) as Hall
        by (apply posted_all; lia).
      split_and!; [|done|].
      * destruct (inv_last_marker s Hreach Hall) as [He|[l Hl]];
          [by rewrite Hitems in He|]. rewrite Hitems in Hl.
        destruct l as [|m l]; simplify_eq/=; [done|].
        rewrite stops_snoc_stop in Hs. lia.
      * destruct (lookup_lt_is_Some_2 (workers s) 0) as [w Hw0]; [lia|].
        eapply inv_intake_empty; [done..|].
        right. by eapply all_done_lookup.
    + destruct ended; [by apply IH|done].
Qed.

(** The batch queue holds batches, and then the marker from the moment
    the batcher returns to the moment the consumer takes it. *)
Lemma inv_batch_queue : ∀ s,
  reachable s0 s →
  ∃ bl,
    items (batches s) =
      (Payload <$> bl)
      ++ (if is_bdone (batcher s) && negb (finished s)
          then [StopIteration] else []) ∧
    (finished s = true → is_bdone (batcher s) = true ∧ bl = []).
Proof.
  invariant.
  - by exists [].
  - destruct IH as (bl & Hbl & Hfinished).
    step_cases Hstep; simpl in *; rewrite ?Hb in *; simpl in *;
      try (by exists bl; repeat case_match).
    + exists (bl ++ [b]).
      destruct (finished s); [by destruct (Hfinished eq_refl)|].
      rewrite Hbl, fmap_app, app_nil_r. simpl.
      by destruct ended; rewrite app_nil_r.
    + exists bl. destruct (finished s); [by destruct (Hfinished eq_refl)|].
      by rewrite Hbl, !app_nil_r.
    + rewrite Hfin, andb_true_r in Hbl. rewrite Hitems in Hbl.
      destruct bl as [|b' bl]; simpl in Hbl.
      * by destruct (is_bdone (batcher s)).
      * injection Hbl as -> Hrest. exists bl.
        by rewrite Hfin, andb_true_r.
    + rewrite Hfin, andb_true_r in Hbl. rewrite Hitems in Hbl.
      destruct bl as [|b' bl]; simpl in Hbl; [|done].
      exists []. destruct (is_bdone (batcher s)); [|done].
      injection Hbl as ->. by rewrite andb_false_r.
Qed.

(** Once the consumer has seen the end of the stream, every queue is empty
    and every thread has returned. *)
Lemma finished_state s :
  reachable s0 s →
  finished s = true →
  batcher s = BDone ∧ items (batches s) = [] ∧ items (samples s) = [] ∧
  Forall (λ w, w = WDone) (workers s) ∧ items (regions s) = [] ∧
  nstops s = bam_workers ∧ 0 < bam_workers.
Proof.
  intros Hreach Hfin.
  destruct (inv_batch_queue s Hreach) as (bl & Hbl & Hdone).
  destruct (Hdone Hfin) as [Hb ->]. rewrite Hfin, andb_false_r in Hbl.
  assert (batcher s = BDone) as Hb' by (by destruct (batcher s)).
  destruct (inv_drained s Hreach) as (? & ? & ?); [by rewrite Hb'|].
  destruct (inv_nstops s Hreach) as [[? ?] _]; [by rewrite Hb'|].
  done.
Qed.

Lemma finished_healthy s :
  reachable s0 s → finished s = true → healthy s.
Proof.
  intros Hreach Hfin.
  destruct (finished_state s Hreach Hfin) as (Hb & _ & _ & Hall & _).
  split; [|rewrite Hb; simpl; tauto].
  eapply Forall_impl; [exact Hall|]. intros w ->. simpl. tauto.
Qed.

(** *** Every step uses up fuel *)

Lemma transition_fuel t s s' : transition s t s' → fuel s' < fuel s.
Proof.
  intros Hstep. unfold fuel.
  step_cases Hstep; simpl;
    rewrite ?Hintake, ?Hitems, ?Hb; csimpl;
    rewrite ?fmap_app, ?sum_list_with_app, ?length_app; csimpl;
    try (pose proof (sum_list_fmap_insert wfuel _ _ _ WStop Hw));
    try (pose proof (sum_list_fmap_insert wfuel _ _ _ WDone Hw));
    try (pose proof (sum_list_fmap_insert wfuel _ _ _ WLoop Hw));
    try (pose proof (sum_list_fmap_insert wfuel _ _ _ WCrashed Hw));
    try (pose proof (sum_list_fmap_insert wfuel _ _ _
                       (WPut smpls remain) Hw));
    try (pose proof (sum_list_fmap_insert wfuel _ _ _
                       (WPut pending remain) Hw));
    unfold region_fuel, gen_samples; rewrite ?Hgen;
    repeat case_match; simpl in *; lia.
Qed.

(** A schedule is no longer than the fuel of the state it starts from. *)
Lemma run_bounded sched s s' :
  run sched s = Some s' → length sched + fuel s' ≤ fuel s.
Proof.
  revert s. induction sched as [|t sched IH]; intros s Hrun; simpl in *.
  - injection Hrun as <-. lia.
  - destruct (exec t s) as [s1|] eqn:Ht; [|done]. simpl in Hrun.
    apply exec_transition, transition_fuel in Ht. apply IH in Hrun. lia.
Qed.

(** *** The samples on their way *)

Lemma pendings_replicate n :
  mjoin (wpending <$> replicate n (WLoop : WState)) = [].
Proof. induction n as [|n IH]; csimpl; [done|]. by rewrite IH. Qed.

Lemma bsamples_grouper_next acc x :
  bsamples (match grouper_next batch_size acc x with
            | inl data => BEmit data false
            | inr acc' => BRun acc'
            end : BState) = acc ++ [x].
Proof.
  destruct (grouper_next batch_size acc x) as [data|acc'] eqn:Hn; simpl.
  - by apply grouper_next_inl in Hn as [-> _].
  - by apply grouper_next_inr in Hn as [-> _].
Qed.

Lemma bsamples_flush (acc : list (Sample Meta elt)) :
  bsamples (match acc with [] => BFinal | _ => BEmit acc true end
            : BState) = acc.
Proof. by destruct acc. Qed.

(** What holds of the samples of every region holds of the samples that
    wait with a worker, on the sample queue or with the batcher. *)
Lemma inv_unemitted (P : Sample Meta elt → Prop) :
  (∀ r smpls remain,
     r ∈ regs → run_region r = Some (smpls, remain) → Forall P smpls) →
  ∀ s, reachable s0 s →
  ∀ x, x ∈ bsamples (batcher s) ∨ Payload x ∈ items (samples s)
       ∨ x ∈ pendings s → P x.
Proof.
  intros Hgen_P. invariant.
  - unfold pendings. simpl. rewrite pendings_replicate.
    intros x. rewrite !elem_of_nil. tauto.
  - intros y Hy. pose proof (inv_intake_suffix s Hreach) as [taken Htaken].
    unfold pendings in *.
    step_cases Hstep; simpl in *;
      rewrite ?Hb, ?Hitems, ?bsamples_grouper_next, ?bsamples_flush in *;
      simpl in *;
      repeat match goal with
        | H : _ ∨ _ |- _ => destruct H
        | H : _ ∈ mjoin (wpending <$> <[_:=_]> _) |- _ =>
            apply elem_of_join_insert in H; simpl in H
        | H : _ ∈ _ ++ _ |- _ => apply elem_of_app in H
        | H : _ ∈ [_] |- _ => apply list_elem_of_singleton in H
        | H : _ ∈ [] |- _ => by apply elem_of_nil in H
        | H : Payload _ = Payload _ |- _ => injection H as ->
        | H : Payload _ = StopIteration |- _ => discriminate H
        end;
      try (by apply IH; auto);
      try (by apply IH; right; left; rewrite ?Hitems; set_solver).
    + eapply Forall_forall; [eapply (Hgen_P r); [|done]|done].
      rewrite Htaken, Hintake. set_solver.
    + apply IH. right; right. eapply elem_of_join_lookup; [done|].
      simpl. set_solver.
    + apply IH. right; right. eapply elem_of_join_lookup; [done|].
      simpl. set_solver.
    + destruct ended; simpl in *; by apply elem_of_nil in H.
Qed.

Lemma crash_permanent t s s' :
  transition s t s' → bcrashed (batcher s) → bcrashed (batcher s').
Proof.
  intros Hstep. step_cases Hstep; simpl; try done; rewrite Hb; by simpl.
Qed.

(** The batcher and the consumer leave the workers, the intake and the
    remainders alone. *)
Lemma frame_batcher_consumer t s s' :
  transition s t s' → t = Batcher ∨ t = Consumer →
  workers s' = workers s ∧ regions s' = regions s ∧
  remainders s' = remainders s.
Proof. intros Hstep Ht. step_cases Hstep; simpl; try done; by destruct Ht. Qed.

(** The batcher and the consumer move samples along the stream and do not
    change it. *)
Lemma vstream_batcher_consumer t s s' :
  transition s t s' → t = Batcher ∨ t = Consumer →
  (∀ x, x ∈ bsamples (batcher s) → wf_sample x) →
  ¬ bcrashed (batcher s') →
  vstream s' = vstream s.
Proof.
  intros Hstep Ht Hwf Hok. unfold vstream, stream, emitted.
  step_cases Hstep; try (by destruct Ht); simpl in *;
    rewrite ?Hb, ?Hitems, ?bsamples_grouper_next, ?bsamples_flush in *;
    rewrite ?payloads_snoc_stop, ?payloads_snoc_payload; simpl;
    try done.
  - by rewrite <-!app_assoc.
  - destruct b as [out batch].
    assert (bsamples (if ended then BFinal else BRun [] : BState) = [])
      as -> by (by destruct ended).
    repeat (rewrite ?fmap_app, ?join_app; simpl).
    rewrite !app_nil_r, <-!app_assoc. do 2 f_equal.
    f_equal. eapply make_batch_values; [|done]. by apply Forall_forall.
  - by rewrite <-(app_assoc (consumed s)).
Qed.

Section samples.
(** The features of a generated sample are a view inside their buffer. *)
Hypothesis gen_wf : ∀ r smpls remain,
  r ∈ regs → run_region r = Some (smpls, remain) → Forall wf_sample smpls.

Lemma inv_wf s x :
  reachable s0 s → x ∈ bsamples (batcher s) → wf_sample x.
Proof. intros Hreach Hx. eapply (inv_unemitted wf_sample); eauto. Qed.

(** No sample is lost and none is made up: the samples of the run are, at
    every moment, those of the regions. *)
Lemma inv_samples : ∀ s,
  reachable s0 s →
  ¬ bcrashed (batcher s) →
  value_of <$> all_samples s ≡ₚ value_of <$> mjoin (gen_samples <$> regs).
Proof.
  invariant.
  - intros _. unfold all_samples, stream, emitted, pendings. simpl.
    by rewrite pendings_replicate.
  - intros Hok. rewrite <-IH by eauto using crash_permanent.
    pose proof Hstep as Hstep'.
    unfold all_samples, intake_samples, pendings.
    step_cases Hstep;
      try (destruct (frame_batcher_consumer _ _ _ Hstep' ltac:(auto))
             as (-> & -> & _);
           pose proof (vstream_batcher_consumer _ _ _ Hstep' ltac:(auto)
                         (λ x, inv_wf s x Hreach) Hok) as Hv;
           unfold vstream in Hv;
           by rewrite !(fmap_app _ (stream _)), Hv);
      unfold stream, emitted; simpl;
      rewrite ?Hintake, ?payloads_snoc_stop, ?payloads_snoc_payload; csimpl.
    + by rewrite (join_fmap_insert_same wpending _ _ _ _ Hw).
    + rewrite (join_fmap_insert_fresh wpending _ _ _ _ Hw) by done. simpl.
      unfold Loader.gen_samples at 2. rewrite Hgen.
      f_equiv. f_equiv. rewrite <-app_assoc. apply Permutation_app_swap_app.
    + rewrite (join_fmap_insert_same wpending _ _ _ _ Hw) by done.
      unfold Loader.gen_samples at 2. by rewrite Hgen.
    + by rewrite (join_fmap_insert_same wpending _ _ _ _ Hw).
    + rewrite <-(join_fmap_insert_cons wpending _ _ _ (WPut pending remain)
                   _ Hw) by done.
      by rewrite <-!app_assoc.
    + by rewrite (join_fmap_insert_same wpending _ _ _ _ Hw).
Qed.

(** *** The remainders *)

Lemma wremain_replicate n :
  mjoin (wremain <$> replicate n (WLoop : WState)) = [].
Proof. induction n as [|n IH]; csimpl; [done|]. by rewrite IH. Qed.

(** No remainder is lost and none is made up. *)
Lemma inv_remainders : ∀ s,
  reachable s0 s → all_remainders s ≡ₚ mjoin (gen_remain <$> regs).
Proof.
  invariant.
  - unfold all_remainders. simpl. by rewrite wremain_replicate.
  - rewrite <-IH. pose proof Hstep as Hstep'. unfold all_remainders.
    step_cases Hstep;
      try (by destruct (frame_batcher_consumer _ _ _ Hstep' ltac:(auto))
             as (-> & -> & ->));
      simpl; rewrite ?Hintake; csimpl.
    + by rewrite (join_fmap_insert_same wremain _ _ _ _ Hw).
    + rewrite (join_fmap_insert_fresh wremain _ _ _ _ Hw) by done. simpl.
      unfold Loader.gen_remain at 2. rewrite Hgen.
      f_equiv. rewrite <-app_assoc. apply Permutation_app_swap_app.
    + rewrite (join_fmap_insert_same wremain _ _ _ _ Hw) by done.
      unfold Loader.gen_remain at 2. by rewrite Hgen.
    + by rewrite (join_fmap_insert_same wremain _ _ _ _ Hw).
    + by rewrite (join_fmap_insert_same wremain _ _ _ _ Hw).
    + pose proof (join_fmap_insert wremain _ _ _ WLoop Hw) as Hp.
      simpl in Hp. rewrite app_nil_r in Hp. rewrite <-Hp.
      rewrite <-!app_assoc. f_equiv. rewrite !app_assoc. f_equiv.
      apply Permutation_app_comm.
Qed.

(** *** The order of the samples of a region *)

Lemma vstream_put_payload (s : State) x q :
  vstream (set_samples (mk_queue q (items (samples s) ++ [Payload x])) s)
  = vstream s ++ [value_of x].
Proof.
  unfold vstream, stream, emitted. simpl.
  by rewrite payloads_snoc_payload, !app_assoc, fmap_app.
Qed.

Lemma vstream_put_stop (s : State) q :
  vstream (set_samples (mk_queue q (items (samples s) ++ [StopIteration])) s)
  = vstream s.
Proof.
  unfold vstream, stream, emitted. simpl. by rewrite payloads_snoc_stop.
Qed.

Lemma inv_order : ∀ s,
  reachable s0 s →
  ¬ bcrashed (batcher s) →
  ∀ r, r ∈ regs → region_progress s r.
Proof.
  invariant.
  - intros _ r Hr. by left.
  - intros Hok r0 Hr0.
    assert (region_progress s r0) as Hprogress
      by (apply IH; eauto using crash_permanent).
    clear IH. pose proof Hstep as Hstep'. unfold region_progress in *.
    step_cases Hstep;
      try (destruct (frame_batcher_consumer _ _ _ Hstep' ltac:(auto))
             as (-> & -> & _);
           by rewrite (vstream_batcher_consumer _ _ _ Hstep' ltac:(auto)
                         (λ x, inv_wf s x Hreach) Hok));
      change (vstream (set_worker ?i ?w ?s)) with (vstream s);
      change (vstream (set_regions ?q ?s)) with (vstream s);
      change (vstream (set_remainders ?q ?s)) with (vstream s);
      rewrite ?vstream_put_payload, ?vstream_put_stop; simpl;
      destruct Hprogress
        as [Hin|[(j & p & rem & sent & Hj & Hgen_eq & Hsub)|Hsub]];
      try (by left);
      try (by right; right; try apply sublist_inserts_r);
      try (destruct (decide (i = j)) as [<-|Hne];
           [rewrite Hw in Hj; simplify_eq
           |right; left; exists j, p, rem, sent; split_and!;
            [by rewrite list_lookup_insert_ne|done
            |by try apply sublist_inserts_r]]).
    + rewrite Hintake in Hin. apply elem_of_cons in Hin as [->|Hin];
        [|by left].
      right; left. exists i, smpls, remain, []. split_and!.
      * apply list_lookup_insert_eq. by eapply lookup_lt_Some.
      * unfold Loader.gen_samples. by rewrite Hgen.
      * apply sublist_nil_l.
    + rewrite Hintake in Hin. apply elem_of_cons in Hin as [->|Hin];
        [|by left].
      right; right. unfold Loader.gen_samples. rewrite Hgen.
      apply sublist_nil_l.
    + right; left. eexists i, pending, _, (sent ++ [value_of x]).
      split_and!.
      * apply list_lookup_insert_eq. by eapply lookup_lt_Some.
      * rewrite Hgen_eq. csimpl. by rewrite <-app_assoc.
      * by apply sublist_app.
    + right; right. rewrite Hgen_eq. csimpl. by rewrite app_nil_r.
Qed.
End samples.

(** *** The sizes of the batches *)

Lemma emitted_put_batch (s : State) b q :
  emitted (set_batches (mk_queue q (items (batches s) ++ [Payload b])) s)
  = emitted s ++ [b].
Proof.
  unfold emitted. simpl. by rewrite payloads_snoc_payload, app_assoc.
Qed.

Lemma emitted_put_stop (s : State) q :
  emitted (set_batches (mk_queue q (items (batches s) ++ [StopIteration])) s)
  = emitted s.
Proof. unfold emitted. simpl. by rewrite payloads_snoc_stop. Qed.

Lemma emitted_next (s : State) b rest q :
  items (batches s) = Payload b :: rest →
  emitted (set_consumed (consumed s ++ [b]) (set_batches (mk_queue q rest) s))
  = emitted s.
Proof.
  intros Hitems. unfold emitted. simpl. rewrite Hitems. simpl.
  by rewrite <-app_assoc.
Qed.

Lemma emitted_end (s : State) rest q :
  items (batches s) = StopIteration :: rest →
  emitted (set_finished true (set_batches (mk_queue q rest) s)) = emitted s.
Proof. intros Hitems. unfold emitted. simpl. by rewrite Hitems. Qed.

Ltac frame_emitted :=
  repeat first
    [ progress change (emitted (set_worker ?i ?w ?s)) with (emitted s)
    | progress change (emitted (set_regions ?q ?s)) with (emitted s)
    | progress change (emitted (set_samples ?q ?s)) with (emitted s)
    | progress change (emitted (set_remainders ?q ?s)) with (emitted s)
    | progress change (emitted (set_nstops ?q ?s)) with (emitted s)
    | progress change (emitted (set_batcher ?q ?s)) with (emitted s)
    | rewrite emitted_put_batch
    | rewrite emitted_put_stop ].

Lemma grouped_full (gs : list (list (Sample Meta elt))) :
  Forall (λ g, length g = batch_size) gs → grouped batch_size gs.
Proof. intros Hfull. exists gs, []. rewrite app_nil_r. auto. Qed.

Lemma inv_sizes :
  0 < batch_size →
  ∀ s, reachable s0 s →
  grouped batch_size (emitted s).*1 ∧ batcher_sizes s.
Proof.
  intros Hbs. invariant.
  - split; [apply grouped_full|]; unfold batcher_sizes; simpl; auto with lia.
  - destruct IH as [Hgrouped Hbatcher]. unfold batcher_sizes in *.
    step_cases Hstep;
      frame_emitted;
      rewrite ?(emitted_next _ _ _ _ Hitems), ?(emitted_end _ _ _ Hitems);
      simpl; try done; rewrite Hb in Hbatcher.
    + destruct Hbatcher as [Hacc Hall]. split; [done|].
      destruct (grouper_next batch_size acc x) as [data|acc'] eqn:Hn.
      * by apply grouper_next_inl in Hn as [-> ?].
      * apply grouper_next_inr in Hn as [-> Hlen]. split; [|done].
        rewrite length_app in *. simpl in *. lia.
    + destruct Hbatcher as [Hacc Hall]. split; [done|].
      destruct acc; [done|]. split; [|done]. simpl in *. lia.
    + destruct b as [out batch].
      pose proof (make_batch_length _ _ _ Hmake) as Hlen.
      rewrite fmap_app. simpl. destruct ended; simpl.
      * destruct Hbatcher as [Hdata Hall]. split; [|done].
        exists (emitted s).*1, [out]. split_and!; [done..|].
        right. exists out. split; [done|lia].
      * destruct Hbatcher as [Hdata Hall].
        assert (Forall (λ g, length g = batch_size)
                  ((emitted s).*1 ++ [out])) as Hall'.
        { apply Forall_app. split; [done|]. constructor; [lia|done]. }
        split; [by apply grouped_full|]. split; [lia|done].
Qed.

(** *** No thread is stuck before the end *)

Section progress.
(** The feature matrices of all the samples have the shape [sh], and
    generating the samples of a region does not fail. *)
Context (sh : list nat).
Hypothesis gen_ok : ∀ r,
  r ∈ regs →
  ∃ smpls remain,
    run_region r = Some (smpls, remain) ∧
    Forall (λ x, shape (features x) = sh) smpls.

Lemma gen_uniform r smpls remain :
  r ∈ regs → run_region r = Some (smpls, remain) →
  Forall (λ x : Sample Meta elt, shape (features x) = sh) smpls.
Proof.
  intros Hr Hgen. destruct (gen_ok r Hr) as (? & ? & Hgen' & ?). congruence.
Qed.

Lemma healthy_insert (ws : list WState) i w :
  Forall (λ w, ¬ wcrashed w) ws → ¬ wcrashed w →
  Forall (λ w, ¬ wcrashed w) (<[i:=w]> ws).
Proof. intros. by apply Forall_insert. Qed.

Lemma inv_healthy : ∀ s,
  reachable s0 s →
  healthy s ∧
  (∀ data ended, batcher s = BEmit data ended → data ≠ []) ∧
  Forall (λ b : Batch Meta elt, b.1 ≠ []) (emitted s).
Proof.
  invariant.
  - split_and!; [split; simpl; [|tauto]|done|done].
    apply Forall_replicate. simpl. tauto.
  - destruct IH as ([Hws Hbok] & Hdata & Hemitted).
    pose proof (inv_intake_suffix s Hreach) as [taken Htaken].
    unfold healthy.
    step_cases Hstep;
      frame_emitted;
      rewrite ?(emitted_next _ _ _ _ Hitems), ?(emitted_end _ _ _ Hitems);
      simpl;
      try (by split_and!;
              [apply healthy_insert; [done|simpl; tauto]|done..]);
      try (by split_and!; simpl; auto).
    + destruct (gen_ok r) as (? & ? & ? & ?); [|congruence].
      rewrite Htaken, Hintake. set_solver.
    + destruct (grouper_next batch_size acc x) as [data|acc'] eqn:Hn;
        (split_and!; [done|simpl; tauto| |done]); [|done].
      intros ? ? [= <- <-]. apply grouper_next_inl in Hn as [-> _].
      by destruct acc.
    + destruct acc; (split_and!; [done|simpl; tauto| |done]); [done|].
      by intros ? ? [= <- <-].
    + assert (b.1 ≠ []) as Hb1.
      { destruct b as [out batch]. simpl. intros ->.
        apply make_batch_length in Hmake. specialize (Hdata _ _ Hb).
        by destruct data. }
      destruct ended;
        (split_and!; [done|simpl; tauto|done|]);
        apply Forall_app; (split; [done|by constructor]).
    + exfalso. destruct (make_batch_uniform data sh) as [b Hb'].
      * by eapply Hdata.
      * apply Forall_forall. intros x Hx.
        eapply (inv_unemitted (λ x, shape (features x) = sh));
          [apply gen_uniform|done|]. left. by rewrite Hb.
      * congruence.
Qed.

(** There is a worker. *)
Hypothesis workers_pos : 0 < bam_workers.

(** While the consumer has not seen the end of the stream, some thread
    can move. *)
Lemma progress s :
  reachable s0 s → finished s = false → ∃ t s', exec t s = Some s'.
Proof.
  intros Hreach Hfin.
  destruct (inv_healthy s Hreach) as ([Hws Hbok] & Hdata & _).
  destruct (inv_config s Hreach) as (Hlen & _ & Hbq & _).
  cut (∃ t s', transition s t s').
  { intros (t & s' & Hstep). exists t, s'. by apply transition_exec. }
  destruct (batcher s) as [acc|data ended| | |ended] eqn:Hb.
  - destruct (items (samples s)) as [|[x|] rest] eqn:Hitems.
    + destruct (inv_nstops s Hreach) as [_ Hn]. rewrite Hb in Hn.
      pose proof (inv_sentinels s Hreach) as Hs.
      rewrite Hitems in Hs. simpl in Hs.
      destruct (posted_lt (workers s)) as (i & w & Hw & Hposted);
        [destruct Hn; [done|lia|lia]|].
      pose proof (Forall_lookup_1 _ _ _ _ Hws Hw) as Hok.
      assert (full (samples s) = false) as Hfull by by apply full_empty.
      destruct w as [|[|x pending] remain| | |]; simpl in *; try done.
      * destruct (items (regions s)) as [|r rest] eqn:Hintake.
        -- eexists _, _. by eapply t_intake_empty.
        -- destruct (run_region r) as [[smpls remain]|] eqn:Hgen.
           ++ eexists _, _. by eapply t_take.
           ++ eexists _, _. by eapply t_generation_error.
      * eexists _, _. by eapply t_extend.
      * eexists _, _. by eapply t_put.
      * eexists _, _. by eapply t_sentinel.
    + eexists _, _. by eapply t_pop_sample.
    + destruct (decide (S (nstops s) = bam_workers)).
      * eexists _, _. by eapply t_pop_last_stop.
      * eexists _, _. by eapply t_pop_stop.
  - destruct (make_batch data) as [b|] eqn:Hmake.
    + eexists _, _. eapply t_emit; [done..|]. by apply full_unbounded.
    + eexists _, _. by eapply t_stack_error.
  - eexists _, _. eapply t_final; [done|]. by apply full_unbounded.
  - destruct (inv_batch_queue s Hreach) as (bl & Hbl & _).
    rewrite Hb, Hfin in Hbl. simpl in Hbl.
    destruct bl as [|b bl]; simpl in Hbl.
    + eexists _, _. by eapply t_end.
    + eexists _, _. by eapply t_next.
  - simpl in Hbok. tauto.
Qed.

(** Whatever the schedule, the consumer sees the end of the stream. *)
Lemma eventually_finished s :
  reachable s0 s → ∃ sched s', run sched s = Some s' ∧ finished s' = true.
Proof.
  remember (fuel s) as n eqn:Hn. revert s Hn.
  induction n as [n IH] using lt_wf_ind. intros s -> Hreach.
  destruct (finished s) eqn:Hfin; [by exists [], s|].
  destruct (progress s Hreach Hfin) as (t & s1 & Hstep).
  pose proof (transition_fuel _ _ _ (exec_transition _ _ _ Hstep)) as Hlt.
  destruct (IH _ Hlt s1 eq_refl) as (sched & s' & Hrun & Hfin');
    [by eapply reachable_step|].
  exists (t :: sched), s'. simpl. by rewrite Hstep.
Qed.
End progress.

(** A region whose samples cannot be generated kills the worker that takes
    it. *)
Lemma inv_failures : ∀ s,
  reachable s0 s →
  ∀ r, r ∈ regs → run_region r = None →
       r ∈ items (regions s) ∨ ∃ i, workers s !! i = Some WCrashed.
Proof.
  invariant.
  - auto.
  - intros r0 Hr0 Hnone. destruct (IH r0 Hr0 Hnone) as [Hin|[j Hj]].
    + step_cases Hstep; simpl; try (by left);
        rewrite Hintake in Hin;
        (apply elem_of_cons in Hin as [->|Hin]; [|by left]);
        [congruence|].
      right. exists i. apply list_lookup_insert_eq. by eapply lookup_lt_Some.
    + right. exists j.
      step_cases Hstep; simpl; try done;
        (rewrite list_lookup_insert_ne; [done|]); intros <-; congruence.
Qed.

Lemma finished_generated s :
  reachable s0 s → finished s = true →
  ∀ r, r ∈ regs → is_Some (run_region r).
Proof.
  intros Hreach Hfin r Hr.
  destruct (finished_state s Hreach Hfin) as (_ & _ & _ & Hall & Hintake & _).
  destruct (run_region r) as [x|] eqn:Hgen; [by exists x|].
  destruct (inv_failures s Hreach r Hr Hgen) as [Hin|[i Hi]].
  - rewrite Hintake in Hin. by apply elem_of_nil in Hin.
  - by apply (all_done_lookup _ _ _ Hi) in Hall.
Qed.

Lemma finished_vstream s :
  reachable s0 s → finished s = true →
  stream s = mjoin (consumed s).*1 ∧ pendings s = [] ∧
  intake_samples s = [] ∧ all_remainders s = remainders s.
Proof.
  intros Hreach Hfin.
  destruct (finished_state s Hreach Hfin)
    as (Hb & Hbq & Hsq & Hall & Hintake & _).
  assert (∀ {B} (f : WState → list B),
            f WDone = [] → mjoin (f <$> workers s) = []) as Hjoin.
  { intros B f Hf. induction Hall as [|w ws -> _ IH]; csimpl; [done|].
    by rewrite Hf, IH. }
  unfold stream, emitted, pendings, intake_samples, all_remainders.
  rewrite Hb, Hbq, Hsq, Hintake, !Hjoin by done. simpl.
  by rewrite !app_nil_r.
Qed.

(** *** A worker that has seen the intake empty puts its marker *)

Lemma run_cons t sched s s1 :
  exec t s = Some s1 → run (t :: sched) s = run sched s1.
Proof.
  intros Hstep.
  change (run (t :: sched) s) with (exec t s ≫= run sched).
  by rewrite Hstep.
Qed.

(** With room on the sample queue, the worker puts its marker at once. *)
Lemma worker_posts s k :
  workers s !! k = Some WStop → full (samples s) = false →
  ∃ s', exec (Worker k) s = Some s' ∧ workers s' !! k = Some WDone ∧
        items (samples s') = items (samples s) ++ [StopIteration].
Proof.
  intros Hk Hfull. eexists. split_and!.
  - by apply transition_exec, t_sentinel.
  - simpl. apply list_lookup_insert_eq. by eapply lookup_lt_Some.
  - done.
Qed.

(** The batcher, at the head of its loop, takes an item from a sample
    queue that is not empty, and leaves the workers alone. *)
Lemma batcher_pops s acc m rest :
  batcher s = BRun acc → items (samples s) = m :: rest →
  ∃ s', exec Batcher s = Some s' ∧ workers s' = workers s ∧
        samples s' = mk_queue (maxsize (samples s)) rest.
Proof.
  intros Hb Hitems. destruct m as [x|].
  - eexists. split; [by eapply transition_exec, t_pop_sample|done].
  - destruct (decide (S (nstops s) = bam_workers)).
    + eexists. split; [by eapply transition_exec, t_pop_last_stop|done].
    + eexists. split; [by eapply transition_exec, t_pop_stop|done].
Qed.

(** A worker that waits with its marker at a full sample queue puts it
    after the batcher has taken an item. *)
Lemma pop_then_post s k acc :
  workers s !! k = Some WStop → batcher s = BRun acc →
  full (samples s) = true → qsize (samples s) ≤ maxsize (samples s) →
  ∃ s', run [Batcher; Worker k] s = Some s' ∧
        workers s' !! k = Some WDone ∧
        ∃ l, items (samples s') = l ++ [StopIteration].
Proof.
  intros Hk Hb Hfull Hbound.
  unfold full in Hfull.
  apply andb_true_iff in Hfull
    as [Hpos%bool_decide_eq_true Hge%bool_decide_eq_true].
  unfold qsize in Hbound, Hge.
  destruct (items (samples s)) as [|m rest] eqn:Hitems;
    [simpl in Hge; lia|].
  destruct (batcher_pops s acc m rest Hb Hitems) as (s1 & Hpop & Hws & Hsq).
  destruct (worker_posts s1 k) as (s2 & Hpost & Hdone & Hmarker).
  { by rewrite Hws. }
  { apply full_false. right. rewrite Hsq. unfold qsize. simpl in *. lia. }
  exists s2. rewrite (run_cons _ _ _ _ Hpop), (run_cons _ _ _ _ Hpost).
  split_and!; [done..|]. rewrite Hmarker, Hsq. by eexists.
Qed.

(** As long as the batcher lives and [np.stack] does not raise on the
    group it holds, a worker that has seen the intake empty puts its marker
    and leaves its loop: at once when the sample queue has room, and
    otherwise as soon as the batcher has taken an item. *)
Lemma waiting_worker_posts s k :
  reachable s0 s →
  workers s !! k = Some WStop →
  ¬ bcrashed (batcher s) →
  (∀ data ended, batcher s = BEmit data ended → is_Some (make_batch data)) →
  ∃ sched s',
    length sched ≤ 3 ∧ run sched s = Some s' ∧
    workers s' !! k = Some WDone ∧
    ∃ l, items (samples s') = l ++ [StopIteration].
Proof.
  intros Hreach Hk Hok Hstack.
  destruct (full (samples s)) eqn:Hfull; cycle 1.
  { destruct (worker_posts s k Hk Hfull) as (s' & Hpost & Hdone & Hmarker).
    exists [Worker k], s'. rewrite (run_cons _ _ _ _ Hpost).
    split_and!; [simpl; lia|done|done|by eexists]. }
  destruct (inv_config s Hreach) as (_ & _ & Hbq & Hbound).
  assert (qsize (samples s) ≤ maxsize (samples s)) as Hq.
  { apply Hbound. unfold full in Hfull.
    by apply andb_true_iff in Hfull as [?%bool_decide_eq_true _]. }
  assert (stream_ended (batcher s) = false) as Hrunning.
  { destruct (stream_ended (batcher s)) eqn:Hend; [|done].
    destruct (inv_drained s Hreach Hend) as (_ & Hall & _).
    by apply (all_done_lookup _ _ _ Hk) in Hall. }
  destruct (batcher s) as [acc|data ended| | |ended] eqn:Hb;
    simpl in Hrunning; try done.
  - destruct (pop_then_post s k acc Hk Hb Hfull Hq) as (s' & Hrun & ? & ?).
    exists [Batcher; Worker k], s'. split_and!; [simpl; lia|done..].
  - subst ended. destruct (Hstack data false eq_refl) as [b Hmake].
    pose proof (t_emit run_region batch_size bam_workers s data false b
                  Hb Hmake (full_unbounded _ Hbq)) as Hemit.
    apply transition_exec in Hemit.
    match type of Hemit with
    | _ = Some ?s1 =>
        destruct (pop_then_post s1 k [] Hk eq_refl Hfull Hq)
          as (s' & Hrun & ? & ?)
    end.
    exists [Batcher; Batcher; Worker k], s'.
    rewrite (run_cons _ _ _ _ Hemit). split_and!; [simpl; lia|done..].
Qed.

(** The hypothesis on the batcher is needed: once the batcher has died, a
    worker that waits with its marker at a full sample queue waits for
    ever. *)
Lemma blocked_worker_waits k sched : ∀ s s',
  workers s !! k = Some WStop → full (samples s) = true →
  bcrashed (batcher s) →
  run sched s = Some s' →
  workers s' !! k = Some WStop ∧ samples s' = samples s.
Proof.
  induction sched as [|t sched IH]; intros s s' Hk Hblocked Hdead Hrun.
  - by injection Hrun as <-.
  - simpl in Hrun. destruct (exec t s) as [s1|] eqn:Ht; [|done].
    simpl in Hrun. apply exec_transition in Ht.
    assert (workers s1 !! k = Some WStop ∧ samples s1 = samples s ∧
            bcrashed (batcher s1)) as (Hk1 & Hs1 & Hdead1).
    { split_and!; [| |by eapply crash_permanent].
      - step_cases Ht; simpl; try done; try congruence;
          (rewrite list_lookup_insert_ne; [done|]); intros <-; congruence.
      - step_cases Ht; simpl; try done; try congruence;
          by rewrite Hb in Hdead. }
    rewrite <-Hs1. apply (IH s1 s'); [done| |done..]. by rewrite Hs1.
Qed.

(** What the batcher does with a marker. *)
Lemma batcher_counts s acc rest :
  batcher s = BRun acc → items (samples s) = StopIteration :: rest →
  ∃ s', exec Batcher s = Some s' ∧ nstops s' = S (nstops s) ∧
        items (samples s') = rest ∧
        (stream_ended (batcher s') = true ↔ S (nstops s) = bam_workers).
Proof.
  intros Hb Hitems. destruct (decide (S (nstops s) = bam_workers)) as [Hn|Hn].
  - eexists. split; [by eapply transition_exec, t_pop_last_stop|].
    split_and!; [done..|]. simpl. by destruct acc.
  - eexists. split; [by eapply transition_exec, t_pop_stop|].
    split_and!; [done..|]. simpl. rewrite Hb. simpl. by split.
Qed.

(** *** The claims on the pipeline *)

(** C2. Under every schedule, on a run in which the batcher does not die:
    a worker that observes the intake empty stops taking regions, puts
    exactly one marker on the sample queue and leaves its loop, and puts
    nothing more.  In detail: the markers queued and those the batcher has
    counted are as many as the workers that have left their loop; the step
    of a worker that sees the intake empty changes nothing but its own
    state; its next step puts the marker and is its last, and it is taken
    at once when the sample queue has room, and after at most two steps of
    the batcher when it is full; a worker that has left its loop has no
    step.  The batcher counts every marker it pops, and takes the stream as
    exhausted at the step that counts the [bam_workers]-th marker and at no
    other: when there is a worker, the stream is taken as exhausted exactly
    in the states in which [bam_workers] markers have been counted.  When
    the consumer has seen the end of the stream, every worker has left its
    loop, and the batcher has counted one marker for each. *)
Theorem sentinel_protocol s :
  reachable s0 s →
  stops (items (samples s)) + nstops s = posted (workers s) ∧
  (∀ k s', exec (Worker k) s = Some s' →
     (workers s !! k = Some WLoop → items (regions s) = [] →
        workers s' !! k = Some WStop ∧
        items (samples s') = items (samples s)) ∧
     (workers s !! k = Some WStop →
        workers s' !! k = Some WDone ∧
        items (samples s') = items (samples s) ++ [StopIteration]) ∧
     (workers s !! k ≠ Some WStop →
        stops (items (samples s')) = stops (items (samples s)))) ∧
  (∀ i, workers s !! i = Some WDone → exec (Worker i) s = None) ∧
  (stream_ended (batcher s) = true → nstops s = bam_workers) ∧
  (∀ s', exec Batcher s = Some s' → stream_ended (batcher s) = false →
     (stream_ended (batcher s') = true ↔
      nstops s' = bam_workers ∧ nstops s' = S (nstops s))) ∧
  (∀ k, workers s !! k = Some WLoop → items (regions s) = [] →
     exec (Worker k) s = Some (set_worker k WStop s)) ∧
  (∀ k, workers s !! k = Some WStop → full (samples s) = false →
     exec (Worker k) s
     = Some (set_worker k WDone
               (set_samples
                  (mk_queue (maxsize (samples s))
                     (items (samples s) ++ [StopIteration])) s))) ∧
  (∀ k, workers s !! k = Some WStop →
     ¬ bcrashed (batcher s) →
     (∀ data ended,
        batcher s = BEmit data ended → is_Some (make_batch data)) →
     ∃ sched s',
       length sched ≤ 3 ∧ run sched s = Some s' ∧
       workers s' !! k = Some WDone ∧
       ∃ l, items (samples s') = l ++ [StopIteration]) ∧
  (∀ acc rest,
     batcher s = BRun acc → items (samples s) = StopIteration :: rest →
     ∃ s', exec Batcher s = Some s' ∧ nstops s' = S (nstops s) ∧
           items (samples s') = rest ∧
           (stream_ended (batcher s') = true ↔
            S (nstops s) = bam_workers)) ∧
  (0 < bam_workers →
   (stream_ended (batcher s) = true ↔ nstops s = bam_workers)) ∧
  (finished s = true →
   Forall (λ w, w = WDone) (workers s) ∧
   posted (workers s) = bam_workers ∧ nstops s = bam_workers ∧
   items (samples s) = []).
Proof.
  intros Hreach. split_and!.
  - by apply inv_sentinels.
  - intros k s' Hstep%exec_transition.
    remember (Worker k) as t eqn:Ht.
    step_cases Hstep; simplify_eq; simpl;
      rewrite ?(list_lookup_insert_eq (workers s))
        by (by eapply lookup_lt_Some);
      rewrite ?stops_snoc_payload;
      split_and!; intros; simplify_eq; try done; congruence.
  - intros i Hi. simpl. unfold region_worker. by rewrite Hi.
  - intros Hend. by apply (inv_nstops s Hreach).
  - intros s' Hstep%exec_transition Hrun.
    remember Batcher as t eqn:Ht.
    step_cases Hstep; simplify_eq; simpl in *; rewrite ?Hb in *;
      simpl in *; simplify_eq;
      repeat case_match; simpl; (split; [intros ?|intros [? ?]]);
      try done; try lia.
  - intros k Hk Hintake. by apply transition_exec, t_intake_empty.
  - intros k Hk Hfull. by apply transition_exec, t_sentinel.
  - intros k. by apply waiting_worker_posts.
  - intros acc rest. apply batcher_counts.
  - intros Hpos. destruct (inv_nstops s Hreach) as [Hended Hrunning].
    split; [by intros [? _]%Hended|]. intros Hn.
    destruct (stream_ended (batcher s)); [done|].
    destruct (Hrunning eq_refl); lia.
  - intros Hfin.
    destruct (finished_state s Hreach Hfin)
      as (_ & _ & Hsq & Hall & _ & Hn & _).
    pose proof (inv_sentinels s Hreach) as Hs.
    rewrite Hsq in Hs. simpl in Hs. split_and!; [done|lia|done..].
Qed.


(** C1, as the code has it. The batch queue is made with [maxsize] 0, which
    for [queue.Queue] means no bound: a [put] on it never waits, whatever it
    holds. The queue with a bound is the sample queue: when
    [batch_cache_size * batch_size] is positive it never holds more items
    than that. *)
Theorem batch_queue_unbounded s :
  reachable s0 s →
  maxsize (batches s) = 0 ∧
  (∀ m, is_Some (put (batches s) m)) ∧
  maxsize (samples s) = batch_cache_size * batch_size ∧
  (0 < batch_cache_size * batch_size →
   qsize (samples s) ≤ batch_cache_size * batch_size).
Proof.
  intros Hreach. destruct (inv_config s Hreach) as (_ & Hsq & Hbq & Hbound).
  split_and!; [done| |done|by rewrite <-Hsq].
  intros m. unfold put. rewrite full_unbounded by done. by eexists.
Qed.

(** C3. For a positive [batch_size]: [grouper] cuts every stream into
    groups whose concatenation is the stream (arrival order, nothing added,
    nothing dropped, the same number of samples), every group but the last
    has exactly [batch_size] samples and the last has between 1 and
    [batch_size]; the batch made of a group has the samples of the group;
    and under every schedule the batches put on the batch queue have these
    sizes. *)
Theorem batches_grouped :
  0 < batch_size →
  (∀ gen : list (Sample Meta elt),
     let gs := grouper gen batch_size in
     mjoin gs = gen ∧
     sum_list (length <$> gs) = length gen ∧
     (∀ i g, gs !! i = Some g →
        1 ≤ length g ≤ batch_size ∧
        (S i < length gs → length g = batch_size)) ∧
     (∀ i g out batch,
        gs !! i = Some g → make_batch g = Some (out, batch) →
        length out = length g ∧ meta <$> out = meta <$> g)) ∧
  (∀ s, reachable s0 s →
     ∀ i b, emitted s !! i = Some b →
       1 ≤ length b.1 ≤ batch_size ∧
       (S i < length (emitted s) → length b.1 = batch_size)).
Proof.
  intros Hbs. split.
  - intros gen gs. subst gs. unfold grouper.
    pose proof (join_grouper_from batch_size [] gen) as Hjoin.
    split_and!.
    + done.
    + by rewrite <-length_join, Hjoin.
    + intros i g Hi. eapply grouped_lookup; [done| |done].
      apply grouped_from. simpl. lia.
    + intros i g out batch _ Hmake.
      eauto using make_batch_length, make_batch_meta.
  - intros s Hreach i b Hi.
    destruct (inv_sizes Hbs s Hreach) as [Hgrouped _].
    rewrite <-(length_fmap fst (emitted s)).
    eapply grouped_lookup; [done..|]. by rewrite list_lookup_fmap, Hi.
Qed.

(** C5. Provided the features of the generated samples are views inside
    their buffers: whenever the consumer has seen the end of the stream,
    the samples of the consumed batches are those generated from the
    regions, each one once (up to the rebinding of the features), every
    region has been generated, the batch queue is empty, and the remainder
    list holds the remainders of all the regions, each one once. When
    moreover there is a worker, generation does not fail and all the feature
    matrices have one shape, the pipeline does complete: before the end
    some thread can always move, some schedule reaches the end, and no
    schedule is longer than the fuel of the initial state. *)
Theorem samples_accounted :
  (∀ r smpls remain,
     r ∈ regs → run_region r = Some (smpls, remain) →
     Forall wf_sample smpls) →
  (∀ s, reachable s0 s → finished s = true →
     value_of <$> mjoin (consumed s).*1
       ≡ₚ value_of <$> mjoin (gen_samples <$> regs) ∧
     remainders s ≡ₚ mjoin (gen_remain <$> regs) ∧
     (∀ r, r ∈ regs → is_Some (run_region r)) ∧
     items (batches s) = []) ∧
  (0 < bam_workers →
   ∀ sh,
     (∀ r, r ∈ regs →
        ∃ smpls remain,
          run_region r = Some (smpls, remain) ∧
          Forall (λ x, shape (features x) = sh) smpls) →
     (∀ s, reachable s0 s → finished s = false →
        ∃ t s', exec t s = Some s') ∧
     (∃ sched s, run sched s0 = Some s ∧ finished s = true)) ∧
  (∀ sched s, run sched s0 = Some s → length sched ≤ fuel s0).
Proof.
  intros Hwf. split_and!.
  - intros s Hreach Hfin.
    destruct (finished_vstream s Hreach Hfin) as (Hstream & Hpend & Hin & Hrem).
    destruct (finished_healthy s Hreach Hfin) as [_ Hok].
    pose proof (inv_samples Hwf s Hreach Hok) as Hsamples.
    pose proof (inv_remainders s Hreach) as Hremainders.
    unfold all_samples in Hsamples.
    rewrite Hstream, Hpend, Hin, !app_nil_r in Hsamples.
    rewrite Hrem in Hremainders.
    split_and!; [done|done|by eapply finished_generated|].
    by destruct (finished_state s Hreach Hfin) as (_ & ? & _).
  - intros Hpos sh Hgen. split.
    + intros s Hreach Hfin. by eapply progress.
    + by eapply eventually_finished, reachable_refl.
  - intros sched s Hrun. apply run_bounded in Hrun. lia.
Qed.

(** C7. Provided the features of the generated samples are views inside
    their buffers: under every schedule, as long as the batcher lives, the
    samples of a region that a worker has put are in the merged stream in
    the order of their generation; and whenever the consumer has seen the
    end of the stream, the samples generated from each region are, in the
    order of their generation, a subsequence of the concatenation of the
    consumed batches. *)
Theorem region_order_preserved :
  (∀ r smpls remain,
     r ∈ regs → run_region r = Some (smpls, remain) →
     Forall wf_sample smpls) →
  (∀ s, reachable s0 s → ¬ bcrashed (batcher s) →
     ∀ r, r ∈ regs → region_progress s r) ∧
  (∀ s, reachable s0 s → finished s = true →
     ∀ r, r ∈ regs →
       value_of <$> gen_samples r
         `sublist_of` value_of <$> mjoin (consumed s).*1).
Proof.
  intros Hwf. split; [by apply inv_order|].
  intros s Hreach Hfin r Hr.
  destruct (finished_vstream s Hreach Hfin) as (Hstream & _).
  destruct (finished_healthy s Hreach Hfin) as [_ Hok].
  destruct (finished_state s Hreach Hfin) as (_ & _ & _ & Hall & Hintake & _).
  destruct (inv_order Hwf s Hreach Hok r Hr)
    as [Hin|[(i & p & rem & sent & Hi & _)|Hsub]].
  - rewrite Hintake in Hin. by apply elem_of_nil in Hin.
  - by apply (all_done_lookup _ _ _ Hi) in Hall.
  - unfold vstream in Hsub. by rewrite Hstream in Hsub.
Qed.
End steps.

(** *** An empty list of regions *)

Section starvation.
Context {Region Remainder Meta elt : Type}.
Context (run_region :
  Region → option (list (Sample Meta elt) * list Remainder)).
Context (batch_size batch_cache_size bam_workers : nat).

#[local] Abbreviation exec := (exec run_region batch_size bam_workers).
#[local] Abbreviation run := (run run_region batch_size bam_workers).
#[local] Abbreviation reachable :=
  (reachable run_region batch_size bam_workers).
#[local] Abbreviation s0 :=
  (init (Region:=Region) (Remainder:=Remainder) (Meta:=Meta) (elt:=elt)
     [] batch_size batch_cache_size bam_workers).

Lemma no_regions_healthy s :
  reachable s0 s →
  healthy s ∧ Forall (λ b : Batch Meta elt, b.1 ≠ []) (emitted s).
Proof.
  intros Hreach.
  destruct (inv_healthy run_region batch_size bam_workers [] batch_cache_size
              [] ltac:(by intros r ?%elem_of_nil) s Hreach) as (? & _ & ?).
  done.
Qed.

Lemma no_regions_no_samples s :
  reachable s0 s →
  payloads (items (samples s)) = [] ∧ bsamples (batcher s) = [] ∧
  emitted s = [] ∧ pendings s = [].
Proof.
  intros Hreach.
  destruct (no_regions_healthy s Hreach) as [[_ Hok] Hne].
  pose proof (inv_samples run_region batch_size bam_workers []
                batch_cache_size ltac:(by intros r ? ? ?%elem_of_nil)
                s Hreach Hok) as Hsamples.
  simpl in Hsamples. apply Permutation_nil_r, fmap_nil_inv in Hsamples.
  unfold all_samples, stream in Hsamples.
  apply app_eq_nil in Hsamples as [Hstream [Hpending _]%app_eq_nil].
  apply app_eq_nil in Hstream as [Hemitted [? ?]%app_eq_nil].
  split_and!; [done..| |done].
  destruct (emitted s) as [|b bl]; [done|].
  apply Forall_cons in Hne as [Hb _].
  simpl in Hemitted. by apply app_eq_nil in Hemitted as [? _].
Qed.

Lemma no_regions_fuel : fuel run_region s0 = 7 * bam_workers.
Proof.
  unfold fuel. simpl.
  assert (sum_list (wfuel <$> replicate bam_workers
                      (WLoop : WState Remainder Meta elt))
          = 7 * bam_workers) as ->; [|lia].
  induction bam_workers as [|n IH]; csimpl; [done|]. rewrite IH. lia.
Qed.

(** C8. For a loader with workers and a positive batch size (the loaders
    [run_prediction] builds have two workers), on an empty list of regions:
    under every schedule no sample is ever produced and no batch is ever
    put; as long as the consumer has not seen the end of the stream some
    thread can move, some schedule reaches the end, and every schedule
    stops within [7 * bam_workers] steps, so that the iteration ends
    without hanging; and when the consumer has seen the end, it has
    consumed zero batches and every worker has left its loop after putting
    its marker, the batcher having counted [bam_workers] of them. *)
Theorem empty_regions_terminate :
  0 < batch_size → 0 < bam_workers →
  (∀ s, reachable s0 s →
     payloads (items (samples s)) = [] ∧ emitted s = [] ∧
     (finished s = false → ∃ t s', exec t s = Some s') ∧
     (finished s = true →
        consumed s = [] ∧ Forall (λ w, w = WDone) (workers s) ∧
        nstops s = bam_workers ∧ posted (workers s) = bam_workers)) ∧
  (∃ sched s, run sched s0 = Some s ∧ finished s = true) ∧
  (∀ sched s, run sched s0 = Some s → length sched ≤ 7 * bam_workers).
Proof.
  intros _ Hpos.
  assert (∀ r : Region, r ∈ [] →
            ∃ smpls remain,
              run_region r = Some (smpls, remain) ∧
              Forall (λ x, shape (features x) = []) smpls) as Hgen
    by (by intros r ?%elem_of_nil).
  split_and!.
  - intros s Hreach.
    destruct (no_regions_no_samples s Hreach) as (Hq & _ & Hemitted & _).
    split_and!; [done..| |].
    + intros Hfin. by eapply progress.
    + intros Hfin.
      destruct (finished_state _ _ _ _ _ s Hreach Hfin)
        as (_ & _ & Hsq & Hall & _ & Hn & _).
      pose proof (inv_sentinels _ _ _ _ _ s Hreach) as Hs.
      rewrite Hsq in Hs. simpl in Hs.
      split_and!; [|done|done|lia].
      unfold emitted in Hemitted. by apply app_eq_nil in Hemitted as [? _].
  - eapply eventually_finished; [done..|]. apply reachable_refl.
  - intros sched s Hrun. apply run_bounded in Hrun.
    rewrite no_regions_fuel in Hrun. lia.
Qed.
End starvation.
End LoaderFacts.

(** ** The driver *)

Module DriverFacts.
Import PyQueue Loader Driver.

(** C9, on the code. Whatever [bam_workers] is given to [run_prediction],
    its loader has two worker threads; the bound of the sample queue is
    eight times [batch_size]. *)
Theorem run_prediction_workers {Region Remainder Meta elt : Type}
    (regs : list Region) (batch_size bam_workers : nat) :
  length (workers (run_prediction_loader (Remainder:=Remainder) (Meta:=Meta)
                     (elt:=elt) regs batch_size bam_workers)) = 2 ∧
  maxsize (samples (run_prediction_loader (Remainder:=Remainder) (Meta:=Meta)
                      (elt:=elt) regs batch_size bam_workers))
  = 8 * batch_size.
Proof. done. Qed.

(** C10, as the code has it. The inter-op thread count that [predict] puts
    in the environment is the smaller of [args.threads] and 2, so never
    more than 2; when [args.threads] is greater than 2 it is exactly 2, and
    the reduction is reported by a warning in the log. *)
Theorem predict_threads_capped (threads : Z) (n_gpu : nat)
    (environ : gmap string string) :
  (predict_threads threads n_gpu environ).1.1 = Z.min threads 2 ∧
  (predict_threads threads n_gpu environ).1.2 !! "TF_NUM_INTEROP_THREADS"
  = Some (str (Z.min threads 2)) ∧
  ((2 < threads)%Z →
   (predict_threads threads n_gpu environ).1.1 = 2%Z ∧
   (predict_threads threads n_gpu environ).1.2 !! "TF_NUM_INTEROP_THREADS"
   = Some "2" ∧
   (WARNING, "Reducing threads to 2, anymore is a waste.")
     ∈ (predict_threads threads n_gpu environ).2).
Proof.
  unfold predict_threads. case_decide as Hthreads; simpl.
  - rewrite Z.min_r by lia. split_and!; [done| |intros _; split_and!].
    + by rewrite !lookup_insert_ne, lookup_insert_eq by done.
    + done.
    + by rewrite !lookup_insert_ne, lookup_insert_eq by done.
    + set_solver.
  - rewrite Z.min_l by lia. split_and!; [done| |lia].
    by rewrite !lookup_insert_ne, lookup_insert_eq by done.
Qed.
End DriverFacts.

(** ** The claims on a small run *)

Module Examples.
Import NdArray PyQueue Grouper Loader Driver Scenario.
Import BatchFacts LoaderFacts DriverFacts.

Lemma generate_wf (regs : list nat) r smpls remain :
  r ∈ regs → generate r = Some (smpls, remain) → Forall wf_sample smpls.
Proof.
  intros _. destruct r as [|[|[|r]]]; intros [= <- <-];
    repeat constructor; unfold wf_sample, wf; simpl; lia.
Defined.

Lemma full_run_reachable :
  reachable generate 2 2 (start [0; 1] 2 2) (state_after [0; 1] 2 2 full_run).
Proof. exists full_run. by vm_compute. Defined.

Lemma batcher_ahead_reachable :
  reachable generate 1 1 (start [0] 1 1) (state_after [0] 1 1 batcher_ahead).
Proof. exists batcher_ahead. by vm_compute. Defined.


(** C1: with one region of two samples and batches of one, the batcher
    puts the second batch while the first is still on the batch queue: two
    batches are in flight, and the consumer has retrieved none. *)
Lemma two_batches_in_flight :
  ¬ (∀ s, reachable generate 1 1 (start [0] 1 1) s →
          length (payloads (items (batches s))) ≤ 1).
Proof.
  intros Hclaim. specialize (Hclaim _ batcher_ahead_reachable).
  vm_compute in Hclaim. lia.
Qed.

Lemma batch_queue_unbounded_witness :
  reachable generate 1 1 (start [0] 1 1) (state_after [0] 1 1 batcher_ahead) ∧
  maxsize (batches (state_after [0] 1 1 batcher_ahead)) = 0 ∧
  is_Some (put (batches (state_after [0] 1 1 batcher_ahead)) StopIteration).
Proof.
  split; [exact batcher_ahead_reachable|].
  destruct (batch_queue_unbounded generate 1 1 [0] 8 _
              batcher_ahead_reachable) as (Hmax & Hput & _).
  split; [exact Hmax|apply Hput].
Defined.

Lemma intake_seen_empty_reachable :
  reachable generate 2 2 (start [0; 1] 2 2)
    (state_after [0; 1] 2 2 (take 7 full_run)).
Proof. exists (take 7 full_run). by vm_compute. Defined.

Lemma sentinel_protocol_witness :
  reachable generate 2 2 (start [0; 1] 2 2)
    (state_after [0; 1] 2 2 (take 7 full_run)) ∧
  workers (state_after [0; 1] 2 2 (take 7 full_run)) !! 0 = Some WStop ∧
  ¬ bcrashed (batcher (state_after [0; 1] 2 2 (take 7 full_run))) ∧
  (∀ data ended,
     batcher (state_after [0; 1] 2 2 (take 7 full_run)) = BEmit data ended →
     is_Some (make_batch data)) ∧
  ∃ sched s',
    length sched ≤ 3 ∧
    run generate 2 2 sched (state_after [0; 1] 2 2 (take 7 full_run))
    = Some s' ∧
    workers s' !! 0 = Some WDone.
Proof.
  assert (workers (state_after [0; 1] 2 2 (take 7 full_run)) !! 0
          = Some WStop) as Hk by reflexivity.
  assert (¬ bcrashed (batcher (state_after [0; 1] 2 2 (take 7 full_run))))
    as Hok by (simpl; tauto).
  assert (∀ data ended,
            batcher (state_after [0; 1] 2 2 (take 7 full_run))
            = BEmit data ended →
            is_Some (make_batch data)) as Hstack
    by (intros data ended Hb; vm_compute in Hb; discriminate Hb).
  split; [exact intake_seen_empty_reachable|]. split; [exact Hk|].
  split; [exact Hok|]. split; [exact Hstack|].
  destruct (sentinel_protocol generate 2 2 [0; 1] 8 _
              intake_seen_empty_reachable)
    as (_ & _ & _ & _ & _ & _ & _ & Hposts & _).
  destruct (Hposts 0 Hk Hok Hstack) as (sched & s' & Hlen & Hrun & Hdone & _).
  by exists sched, s'.
Defined.

Lemma batches_grouped_witness :
  0 < 2 ∧
  mjoin (grouper [chunk 0 0; chunk 1 2; chunk 2 0] 2)
  = [chunk 0 0; chunk 1 2; chunk 2 0].
Proof.
  assert (0 < 2) as Hbs by lia. split; [exact Hbs|].
  destruct (batches_grouped generate 2 2 [0; 1] 8 Hbs) as [Hpure _].
  destruct (Hpure [chunk 0 0; chunk 1 2; chunk 2 0]) as (Hjoin & _).
  exact Hjoin.
Defined.

Lemma make_batch_stacks_witness :
  [chunk 0 0; chunk 1 2] ≠ [] ∧
  Forall (λ s, wf_sample s ∧ shape (features s) = [2])
    [chunk 0 0; chunk 1 2] ∧
  ∃ out batch,
    make_batch [chunk 0 0; chunk 1 2] = Some (out, batch) ∧
    shape batch = [2; 2].
Proof.
  assert ([chunk 0 0; chunk 1 2] ≠ []) as Hne by discriminate.
  assert (Forall (λ s, wf_sample s ∧ shape (features s) = [2])
            [chunk 0 0; chunk 1 2]) as Hall.
  { repeat constructor; unfold wf_sample, wf; simpl; lia. }
  split; [exact Hne|]. split; [exact Hall|].
  destruct (make_batch_stacks _ _ Hne Hall) as (out & batch & Hm & Hs & _).
  by exists out, batch.
Defined.

Lemma samples_accounted_witness :
  (∀ r smpls remain,
     r ∈ [0; 1] → generate r = Some (smpls, remain) →
     Forall wf_sample smpls) ∧
  reachable generate 2 2 (start [0; 1] 2 2) (state_after [0; 1] 2 2 full_run) ∧
  finished (state_after [0; 1] 2 2 full_run) = true ∧
  value_of <$> mjoin (consumed (state_after [0; 1] 2 2 full_run)).*1
    ≡ₚ value_of <$> mjoin (gen_samples generate <$> [0; 1]) ∧
  remainders (state_after [0; 1] 2 2 full_run)
    ≡ₚ mjoin (gen_remain generate <$> [0; 1]).
Proof.
  assert (finished (state_after [0; 1] 2 2 full_run) = true) as Hfin
    by reflexivity.
  split; [exact (generate_wf [0; 1])|]. split; [exact full_run_reachable|].
  split; [exact Hfin|].
  destruct (samples_accounted generate 2 2 [0; 1] 8 (generate_wf [0; 1]))
    as (Hdone & _).
  destruct (Hdone _ full_run_reachable Hfin) as (Hs & Hr & _).
  by split.
Defined.



Lemma region_order_preserved_witness :
  (∀ r smpls remain,
     r ∈ [0; 1] → generate r = Some (smpls, remain) →
     Forall wf_sample smpls) ∧
  value_of <$> gen_samples generate 0
    `sublist_of`
    value_of <$> mjoin (consumed (state_after [0; 1] 2 2 full_run)).*1.
Proof.
  split; [exact (generate_wf [0; 1])|].
  destruct (region_order_preserved generate 2 2 [0; 1] 8
              (generate_wf [0; 1])) as [_ Hend].
  apply (Hend _ full_run_reachable eq_refl). set_solver.
Defined.

Lemma empty_regions_terminate_witness :
  0 < 3 ∧ 0 < 2 ∧
  (∃ sched s,
     run generate 3 2 sched (run_prediction_loader [] 3 4) = Some s ∧
     finished s = true) ∧
  (∀ sched s,
     run generate 3 2 sched (run_prediction_loader [] 3 4) = Some s →
     length sched ≤ 7 * 2).
Proof.
  assert (0 < 3) as Hbs by lia. assert (0 < 2) as Hpos by lia.
  split; [exact Hbs|]. split; [exact Hpos|].
  destruct (empty_regions_terminate generate 3 8 2 Hbs Hpos)
    as (_ & Hend & Hbound).
  split; [exact Hend|exact Hbound].
Defined.

(** C10: asked for three threads, [predict] logs a warning. *)
Lemma predict_warns :
  (WARNING, "Reducing threads to 2, anymore is a waste.")
    ∈ (predict_threads 3 0 ∅).2.
Proof. vm_compute. set_solver. Qed.

Lemma predict_threads_capped_witness :
  (2 < 8)%Z ∧ (predict_threads 8 0 ∅).1.1 = 2%Z.
Proof.
  assert (2 < 8)%Z as Hthreads by lia. split; [exact Hthreads|].
  destruct (predict_threads_capped 8 0 ∅) as (_ & _ & Hcap).
  destruct (Hcap Hthreads) as (Htwo & _).
  exact Htwo.
Defined.
End Examples.

(** * Further properties of the code *)

(** ** The threads of the loader *)

Module ThreadFacts.
Import NdArray PyQueue Grouper Loader.
Import NdArrayFacts GrouperFacts ListFacts QueueFacts BatchFacts LoaderFacts.

Ltac step_cases Hstep :=
  destruct Hstep as
    [ i Hw Hintake
    | i r rest smpls remain Hw Hintake Hgen
    | i r rest Hw Hintake Hgen
    | i Hw Hfull
    | i x pending remain Hw Hfull
    | i remain Hw
    | acc x rest Hb Hitems
    | acc rest Hb Hitems Hn
    | acc rest Hb Hitems Hn
    | data ended b Hb Hmake Hfull
    | data ended Hb Hmake
    | Hb Hfull
    | b rest Hfin Hitems
    | rest Hfin Hitems ].

Ltac invariant :=
  let s1 := fresh in
  let H1 := fresh in
  intros s1 H1; pattern s1; revert s1 H1; apply reachable_ind;
  [ simpl | intros t s s' Hreach IH Hstep; simpl in IH ].

Section threads.
Context {Region Remainder Meta elt : Type}.
Context (run_region :
  Region → option (list (Sample Meta elt) * list Remainder)).
Context (batch_size bam_workers : nat).

#[local] Abbreviation State := (State Region Remainder Meta elt).
#[local] Abbreviation WState := (WState Remainder Meta elt).
#[local] Abbreviation BState := (BState Meta elt).
#[local] Abbreviation exec := (exec run_region batch_size bam_workers).
#[local] Abbreviation run := (run run_region batch_size bam_workers).
#[local] Abbreviation reachable :=
  (reachable run_region batch_size bam_workers).
#[local] Abbreviation transition :=
  (transition run_region batch_size bam_workers).
#[local] Abbreviation fuel := (fuel run_region).

Lemma reachable_run s0 sched s s' :
  reachable s0 s → run sched s = Some s' → reachable s0 s'.
Proof.
  intros [sched0 Hrun0] Hrun. exists (sched0 ++ sched).
  by rewrite run_app, Hrun0.
Qed.

(** A property that every step keeps is kept by every schedule. *)
Lemma run_preserves (P : State → Prop) :
  (∀ t s s', transition s t s' → P s → P s') →
  ∀ sched s s', run sched s = Some s' → P s → P s'.
Proof.
  intros Hstep sched. induction sched as [|t sched IH]; intros s s' Hrun HP.
  - by injection Hrun as <-.
  - simpl in Hrun. destruct (exec t s) as [s1|] eqn:Ht; [|done].
    simpl in Hrun. eapply IH; [done|].
    eapply Hstep; [by apply exec_transition|done].
Qed.

Lemma posted_insert_le (ws : list WState) i w w' :
  ws !! i = Some w → wposted w ≤ wposted w' →
  posted ws ≤ posted (<[i:=w']> ws).
Proof. intros Hi Hle. pose proof (posted_insert ws i w w' Hi). lia. Qed.

Lemma emitted_step t s s' :
  transition s t s' →
  emitted s' = emitted s ∨
  ∃ data b, make_batch data = Some b ∧ emitted s' = emitted s ++ [b].
Proof.
  intros Hstep.
  step_cases Hstep;
    rewrite ?(emitted_next _ _ _ _ Hitems), ?(emitted_end _ _ _ Hitems);
    try (by left).
  - right. exists data, b. split; [done|]. apply emitted_put_batch.
  - left. apply emitted_put_stop.
Qed.

Lemma step_monotone t s s' :
  transition s t s' →
  remainders s `prefix_of` remainders s' ∧
  consumed s `prefix_of` consumed s' ∧
  emitted s `prefix_of` emitted s' ∧
  items (regions s') `suffix_of` items (regions s) ∧
  nstops s ≤ nstops s' ∧
  posted (workers s) ≤ posted (workers s') ∧
  (finished s = true → finished s' = true).
Proof.
  intros Hstep. split_and!.
  - step_cases Hstep; simpl; try done. by apply prefix_app_r.
  - step_cases Hstep; simpl; try done. by apply prefix_app_r.
  - destruct (emitted_step _ _ _ Hstep) as [->|(data & b & _ & ->)];
      [done|by apply prefix_app_r].
  - step_cases Hstep; simpl; try done;
      rewrite Hintake; by apply suffix_cons_r.
  - step_cases Hstep; simpl; lia.
  - step_cases Hstep; simpl; try done;
      (eapply posted_insert_le; [done|simpl; lia]).
  - step_cases Hstep; simpl; try done; congruence.
Qed.

(** X1. Along every schedule, from any state: the list of remainders, the
    list of batches returned to the consumer and the list of batches put on
    the batch queue only grow at their end, the intake only loses regions
    at its head, the count of markers and the number of workers that have
    left their loop never decrease, and the end of the iteration, once
    raised, stays. *)
Theorem run_monotone sched s s' :
  run sched s = Some s' →
  remainders s `prefix_of` remainders s' ∧
  consumed s `prefix_of` consumed s' ∧
  emitted s `prefix_of` emitted s' ∧
  items (regions s') `suffix_of` items (regions s) ∧
  nstops s ≤ nstops s' ∧
  posted (workers s) ≤ posted (workers s') ∧
  (finished s = true → finished s' = true).
Proof.
  revert s. induction sched as [|t sched IH]; intros s Hrun.
  - injection Hrun as <-. by split_and!.
  - simpl in Hrun. destruct (exec t s) as [s1|] eqn:Ht; [|done].
    simpl in Hrun.
    apply exec_transition, step_monotone in Ht
      as (Hr & Hc & He & Hi & Hn & Hp & Hf).
    destruct (IH _ Hrun) as (Hr' & Hc' & He' & Hi' & Hn' & Hp' & Hf').
    split_and!; [by etrans|by etrans|by etrans|by etrans|lia|lia|auto].
Qed.

Lemma crashed_step t s s' :
  transition s t s' → bcrashed (batcher s) →
  bcrashed (batcher s') ∧ emitted s' = emitted s.
Proof.
  intros Hstep Hc. split; [by eapply crash_permanent|].
  step_cases Hstep;
    rewrite ?(emitted_next _ _ _ _ Hitems), ?(emitted_end _ _ _ Hitems);
    try done; by rewrite Hb in Hc.
Qed.

Lemma forallb_false {A} (f : A → bool) (l : list A) :
  forallb f l = false → ∃ x, x ∈ l ∧ f x = false.
Proof.
  induction l as [|a l IH]; simpl; [done|].
  destruct (f a) eqn:Ha; simpl.
  - intros (x & Hx & Hfx)%IH. exists x. split; [by right|done].
  - intros _. exists a. split; [by left|done].
Qed.

Lemma make_batch_mismatch (data : list (Sample Meta elt)) x y :
  x ∈ data → y ∈ data → shape (features x) ≠ shape (features y) →
  make_batch data = None.
Proof.
  intros Hx Hy Hne.
  destruct (make_batch data) as [[out batch]|] eqn:Hmake; [|done].
  apply make_batch_inv in Hmake as (sh & Hall & _).
  rewrite Forall_forall in Hall.
  pose proof (Hall x Hx). pose proof (Hall y Hy). simpl in *. congruence.
Qed.

(** X2. The body of the loop of [_batch_worker] fails, [np.stack]
    raising, exactly when the group is empty or two of its samples have
    feature matrices of different shapes. *)
Theorem make_batch_fails (data : list (Sample Meta elt)) :
  make_batch data = None ↔
  data = [] ∨
  ∃ x y, x ∈ data ∧ y ∈ data ∧ shape (features x) ≠ shape (features y).
Proof.
  split.
  - intros Hnone. destruct data as [|a rest]; [by left|right].
    unfold make_batch, stack in Hnone. csimpl in Hnone.
    destruct (forallb _ (features <$> rest)) eqn:Hall; [done|].
    apply forallb_false in Hall as (v & Hv & Hshape).
    apply list_elem_of_fmap in Hv as (y & -> & Hy).
    apply bool_decide_eq_false in Hshape.
    exists y, a. split_and!; [by right|by left|done].
  - intros [->|(x & y & Hx & Hy & Hne)]; [done|].
    exact (make_batch_mismatch data x y Hx Hy Hne).
Qed.

(** *** From the state [__init__] leaves *)

Context (regs : list Region) (batch_cache_size : nat).

#[local] Abbreviation s0 :=
  (init (Remainder:=Remainder) (Meta:=Meta) (elt:=elt)
     regs batch_size batch_cache_size bam_workers).

(** X3. Once the consumer has seen the end of the stream nothing moves
    any more: no thread of the loader has a step left, and the only
    schedule that runs is the empty one. *)
Theorem finished_quiescent s :
  reachable s0 s → finished s = true →
  (∀ t, exec t s = None) ∧
  (∀ sched s', run sched s = Some s' → sched = [] ∧ s' = s).
Proof.
  intros Hreach Hfin.
  destruct (finished_state _ _ _ _ _ s Hreach Hfin) as (Hb & _ & _ & Hall & _).
  assert (∀ t, exec t s = None) as Hnone.
  { intros [i| |]; simpl.
    - unfold region_worker. destruct (workers s !! i) as [w|] eqn:Hw; [|done].
      by apply (all_done_lookup _ _ _ Hw) in Hall as ->.
    - unfold batch_worker. by rewrite Hb.
    - unfold next. by rewrite Hfin. }
  split; [done|]. intros [|t sched] s' Hrun.
  - by injection Hrun as <-.
  - simpl in Hrun. by rewrite Hnone in Hrun.
Qed.

(** X4. When the batcher holds a group with two samples whose feature
    matrices differ in shape, its next step is its death: the group is not
    put on the batch queue, and under every later schedule the batcher
    stays dead, no batch and no end-of-stream marker is ever put, and the
    consumer never sees the end of the stream. *)
Theorem stack_error_hangs s data ended x y :
  reachable s0 s → batcher s = BEmit data ended →
  x ∈ data → y ∈ data → shape (features x) ≠ shape (features y) →
  exec Batcher s = Some (set_batcher (BCrashed ended) s) ∧
  ∀ sched s', run (Batcher :: sched) s = Some s' →
    bcrashed (batcher s') ∧ finished s' = false ∧
    emitted s' = emitted s ∧ StopIteration ∉ items (batches s').
Proof.
  intros Hreach Hb Hx Hy Hne.
  pose proof (make_batch_mismatch data x y Hx Hy Hne) as Hmake.
  assert (exec Batcher s = Some (set_batcher (BCrashed ended) s)) as Hstep.
  { simpl. unfold batch_worker. by rewrite Hb, Hmake. }
  split; [done|]. intros sched s' Hrun.
  assert (reachable s0 s') as Hreach' by by eapply reachable_run.
  simpl in Hrun. unfold batch_worker in Hrun. rewrite Hb, Hmake in Hrun.
  simpl in Hrun.
  assert (bcrashed (batcher s') ∧ emitted s' = emitted s) as [Hc He].
  { eapply (run_preserves
              (λ s1, bcrashed (batcher s1) ∧ emitted s1 = emitted s));
      [|exact Hrun|by simpl].
    intros t s1 s2 Ht [Hc1 He1].
    by destruct (crashed_step _ _ _ Ht Hc1) as [? ->]. }
  destruct (inv_batch_queue _ _ _ _ _ s' Hreach') as (bl & Hbl & Hdone).
  assert (is_bdone (batcher s') = false) as Hnd
    by (by destruct (batcher s')).
  split_and!; [done| |done|].
  - destruct (finished s') eqn:Hfin; [|done].
    destruct (Hdone eq_refl) as [? _]. congruence.
  - rewrite Hbl, Hnd. simpl. rewrite app_nil_r.
    intros (b & ? & _)%list_elem_of_fmap. done.
Qed.

(** X5. A worker that has not returned waits exactly when it is about to
    put (a sample or its marker) and the sample queue holds
    [batch_cache_size * batch_size] items, that bound being positive; with
    a bound of zero no worker ever waits.  When a worker waits, the batcher,
    unless it has died, can move. *)
Theorem backpressure s i w :
  reachable s0 s → workers s !! i = Some w → w ≠ WDone → w ≠ WCrashed →
  (exec (Worker i) s = None ↔
     (w = WStop ∨ ∃ x pending remain, w = WPut (x :: pending) remain) ∧
     0 < batch_cache_size * batch_size ∧
     qsize (samples s) = batch_cache_size * batch_size) ∧
  (exec (Worker i) s = None → ¬ bcrashed (batcher s) →
   is_Some (exec Batcher s)).
Proof.
  intros Hreach Hw Hdone Hcrashed.
  destruct (inv_config _ _ _ _ _ s Hreach) as (Hlen & Hsq & Hbq & Hbound).
  assert (full (samples s) = true ↔
          0 < batch_cache_size * batch_size ∧
          qsize (samples s) = batch_cache_size * batch_size) as Hfull.
  { unfold full. rewrite andb_true_iff, !bool_decide_eq_true.
    rewrite Hsq in *. split; [intros [Hpos ?]|lia].
    specialize (Hbound Hpos). lia. }
  assert (exec (Worker i) s = None ↔
          (w = WStop ∨ ∃ x pending remain, w = WPut (x :: pending) remain) ∧
          full (samples s) = true) as Hexec.
  { simpl. unfold region_worker, put. rewrite Hw. simpl.
    destruct w as [|[|x p] rem| | |]; try done.
    - destruct (get_nowait (regions s)) as [[r rest]|];
        [destruct (run_region r) as [[? ?]|]|];
        (split; [done|]); by intros [[?|(? & ? & ? & ?)] _].
    - split; [done|]. by intros [[?|(? & ? & ? & ?)] _].
    - destruct (full (samples s)); simpl; (split; [|by intros [_ ?]]);
        [|done]. intros _. split; [|done]. right. eauto.
    - destruct (full (samples s)); simpl; (split; [|by intros [_ ?]]);
        [|done]. intros _. split; [|done]. by left. }
  split; [rewrite Hexec, Hfull; tauto|].
  intros [_ [Hpos Hq]%Hfull]%Hexec Hok.
  simpl. unfold batch_worker, put, get_nowait.
  destruct (batcher s) as [acc|data ended| | |ended] eqn:Hb.
  - unfold qsize in Hq.
    destruct (items (samples s)) as [|[x|] rest]; simpl in *; [lia|done|].
    by case_decide.
  - destruct (make_batch data); [|done].
    by rewrite full_unbounded by done.
  - by rewrite full_unbounded by done.
  - destruct (inv_drained _ _ _ _ _ s Hreach) as (Hi & _);
      [by rewrite Hb|]. unfold qsize in Hq. rewrite Hi in Hq. simpl in Hq. lia.
  - simpl in Hok. tauto.
Qed.

Lemma inv_emitted_made : ∀ s,
  reachable s0 s →
  Forall (λ b, ∃ data, make_batch data = Some b) (emitted s).
Proof.
  invariant.
  - constructor.
  - destruct (emitted_step _ _ _ Hstep) as [->|(data & b & Hmake & ->)];
      [done|].
    apply Forall_app. split; [done|]. constructor; [by exists data|done].
Qed.

(** X6. Every batch the batcher puts on the batch queue, under every
    schedule, ties its list of samples to its array: the array starts its
    own buffer, its leading dimension is the number of samples, and the
    features of sample [i] are the view [batch[i]] itself, all of one
    shape. *)
Theorem batches_tied s k out batch :
  reachable s0 s → emitted s !! k = Some (out, batch) →
  ∃ sh,
    shape batch = length out :: sh ∧ off batch = 0 ∧
    length (iter batch) = length out ∧
    ∀ i x, out !! i = Some x →
      index batch i = Some (features x) ∧ shape (features x) = sh.
Proof.
  intros Hreach Hk.
  pose proof (Forall_lookup_1 _ _ _ _ (inv_emitted_made s Hreach) Hk)
    as [data Hmake]. simpl in Hmake.
  pose proof (make_batch_length _ _ _ Hmake) as Hlen.
  destruct (make_batch_inv _ _ _ Hmake) as (sh & Hall & Hbatch & _).
  exists sh. split_and!.
  - rewrite Hbatch. simpl. by rewrite Hlen.
  - by rewrite Hbatch.
  - rewrite Hbatch. unfold iter. simpl. by rewrite length_fmap, length_seq.
  - intros i x Hx. destruct (data !! i) as [x0|] eqn:Hi.
    + destruct (make_batch_lookup _ _ _ _ _ Hmake Hi)
        as (v & Hv & Hout & _ & _ & Hshape).
      rewrite Hout in Hx. injection Hx as <-. simpl. split; [done|].
      rewrite Hshape. by apply (Forall_lookup_1 _ _ _ _ Hall Hi).
    + apply lookup_ge_None in Hi. apply lookup_lt_Some in Hx. lia.
Qed.

(** *** Progress without a hypothesis on the shapes *)

Lemma inv_workers_alive :
  (∀ r, r ∈ regs → is_Some (run_region r)) →
  ∀ s, reachable s0 s → Forall (λ w, ¬ wcrashed w) (workers s).
Proof.
  intros Htotal. invariant.
  - apply Forall_replicate. simpl. tauto.
  - pose proof (inv_intake_suffix _ _ _ _ _ s Hreach) as [taken Htaken].
    step_cases Hstep; simpl; try done;
      try (apply Forall_insert; [done|simpl; tauto]).
    destruct (Htotal r) as [? ?]; [|congruence].
    rewrite Htaken, Hintake. set_solver.
Qed.

Lemma progress_healthy s :
  0 < bam_workers → reachable s0 s → healthy s → finished s = false →
  ∃ t s', exec t s = Some s'.
Proof.
  intros Hpos Hreach [Hws Hbok] Hfin.
  destruct (inv_config _ _ _ _ _ s Hreach) as (Hlen & _ & Hbq & _).
  cut (∃ t s', transition s t s').
  { intros (t & s' & Hstep). exists t, s'. by apply transition_exec. }
  destruct (batcher s) as [acc|data ended| | |ended] eqn:Hb.
  - destruct (items (samples s)) as [|[x|] rest] eqn:Hitems.
    + destruct (inv_nstops _ _ _ _ _ s Hreach) as [_ Hn]. rewrite Hb in Hn.
      pose proof (inv_sentinels _ _ _ _ _ s Hreach) as Hs.
      rewrite Hitems in Hs. simpl in Hs.
      destruct (posted_lt (workers s)) as (i & w & Hw & Hposted);
        [destruct Hn; [done|lia|lia]|].
      pose proof (Forall_lookup_1 _ _ _ _ Hws Hw) as Hok.
      assert (full (samples s) = false) as Hfull by by apply full_empty.
      destruct w as [|[|x pending] remain| | |]; simpl in *; try done.
      * destruct (items (regions s)) as [|r rest] eqn:Hintake.
        -- eexists _, _. by eapply t_intake_empty.
        -- destruct (run_region r) as [[smpls remain]|] eqn:Hgen.
           ++ eexists _, _. by eapply t_take.
           ++ eexists _, _. by eapply t_generation_error.
      * eexists _, _. by eapply t_extend.
      * eexists _, _. by eapply t_put.
      * eexists _, _. by eapply t_sentinel.
    + eexists _, _. by eapply t_pop_sample.
    + destruct (decide (S (nstops s) = bam_workers)).
      * eexists _, _. by eapply t_pop_last_stop.
      * eexists _, _. by eapply t_pop_stop.
  - destruct (make_batch data) as [b|] eqn:Hmake.
    + eexists _, _. eapply t_emit; [done..|]. by apply full_unbounded.
    + eexists _, _. by eapply t_stack_error.
  - eexists _, _. eapply t_final; [done|]. by apply full_unbounded.
  - destruct (inv_batch_queue _ _ _ _ _ s Hreach) as (bl & Hbl & _).
    rewrite Hb, Hfin in Hbl. simpl in Hbl.
    destruct bl as [|b bl]; simpl in Hbl.
    + eexists _, _. by eapply t_end.
    + eexists _, _. by eapply t_next.
  - simpl in Hbok. tauto.
Qed.

Lemma completes s :
  (∀ s1, reachable s0 s1 → finished s1 = false →
         ∃ t s', exec t s1 = Some s') →
  reachable s0 s → ∃ sched s', run sched s = Some s' ∧ finished s' = true.
Proof.
  intros Hprogress.
  remember (fuel s) as n eqn:Hn. revert s Hn.
  induction n as [n IH] using lt_wf_ind. intros s -> Hreach.
  destruct (finished s) eqn:Hfin; [by exists [], s|].
  destruct (Hprogress s Hreach Hfin) as (t & s1 & Hstep).
  pose proof (transition_fuel _ _ _ _ _ _ (exec_transition _ _ _ _ _ _ Hstep))
    as Hlt.
  destruct (IH _ Hlt s1 eq_refl) as (sched & s' & Hrun & Hfin');
    [by eapply reachable_step|].
  exists (t :: sched), s'. simpl. by rewrite Hstep.
Qed.
End threads.

(** *** Batches of one sample *)

Section singles.
Context {Region Remainder Meta elt : Type}.
Context (run_region :
  Region → option (list (Sample Meta elt) * list Remainder)).
Context (bam_workers : nat) (regs : list Region) (batch_cache_size : nat).

#[local] Abbreviation exec := (exec run_region 1 bam_workers).
#[local] Abbreviation run := (run run_region 1 bam_workers).
#[local] Abbreviation reachable := (reachable run_region 1 bam_workers).
#[local] Abbreviation s0 :=
  (init (Remainder:=Remainder) (Meta:=Meta) (elt:=elt)
     regs 1 batch_cache_size bam_workers).

Lemma inv_single_alive : ∀ s, reachable s0 s → ¬ bcrashed (batcher s).
Proof.
  invariant; [tauto|].
  destruct (inv_sizes run_region 1 bam_workers regs batch_cache_size
              ltac:(lia) s Hreach) as [_ Hsizes].
  unfold batcher_sizes in Hsizes.
  step_cases Hstep; simpl; try done; try (repeat case_match; simpl; tauto).
  rewrite Hb in Hsizes. destruct ended; [lia|].
  destruct Hsizes as [Hlen _].
  destruct data as [|x [|]]; simplify_eq/=.
Qed.

(** X7. With a batch size of 1, as in the second pass of [predict] over
    the short regions: under every schedule [np.stack] never raises,
    whatever the shapes of the feature matrices, and every batch put on the
    batch queue holds exactly one sample.  When moreover there is a worker
    and the generation of samples does not fail, some thread can move as
    long as the consumer has not seen the end of the stream, and the end is
    reached. *)
Theorem single_sample_batches :
  (∀ s, reachable s0 s →
     ¬ bcrashed (batcher s) ∧
     Forall (λ b : Batch Meta elt, length b.1 = 1) (emitted s)) ∧
  (0 < bam_workers →
   (∀ r, r ∈ regs → is_Some (run_region r)) →
   (∀ s, reachable s0 s → finished s = false → ∃ t s', exec t s = Some s') ∧
   (∃ sched s, run sched s0 = Some s ∧ finished s = true)).
Proof.
  split.
  - intros s Hreach. split; [by apply inv_single_alive|].
    destruct (inv_sizes run_region 1 bam_workers regs batch_cache_size
                ltac:(lia) s Hreach)
      as [(full & rest & Heq & Hfull & Hrest) _].
    destruct Hrest as [->|(g & -> & Hg)]; [|lia].
    rewrite app_nil_r in Heq. rewrite <-Heq in Hfull.
    by apply Forall_fmap in Hfull.
  - intros Hpos Htotal.
    assert (∀ s, reachable s0 s → finished s = false →
                 ∃ t s', exec t s = Some s') as Hprogress.
    { intros s Hreach Hfin. eapply progress_healthy; [done..| |done].
      split; [by eapply inv_workers_alive|by apply inv_single_alive]. }
    split; [done|].
    eapply completes; [done|apply reachable_refl].
Qed.
End singles.
End ThreadFacts.

(** ** [_get_samples] and [_batch_worker], read sequentially *)

Module GeneratorFacts.
Import NdArray PyQueue Grouper Loader Generators.
Import GrouperFacts QueueFacts BatchFacts LoaderFacts.

Section get_samples.
Context {A : Type}.
Implicit Types (popped pre post : list (Msg A)).

(** X8. [_get_samples] reads the popped items up to and including the
    first marker that brings its counter to [bam_workers], and nothing
    behind it; it yields, in order, the samples before that marker; it
    returns exactly when there is such a marker.  When the counter has
    already reached [bam_workers] at the call (as for [bam_workers = 0])
    it never returns. *)
Theorem get_samples_spec (bam_workers nstops : nat) popped :
  (∃ pre post,
     popped = pre ++ post ∧
     (get_samples bam_workers nstops popped).1 = payloads pre ∧
     (∀ pre' post', pre = pre' ++ StopIteration :: post' →
        S (nstops + stops pre') ≠ bam_workers) ∧
     if (get_samples bam_workers nstops popped).2
     then ∃ post', post = StopIteration :: post' ∧
                   S (nstops + stops pre) = bam_workers
     else post = []) ∧
  (bam_workers ≤ nstops → (get_samples bam_workers nstops popped).2 = false).
Proof.
  revert nstops. induction popped as [|[x|] rest IH]; intros n.
  - split; [|done]. exists [], []. split_and!; [done..| |done].
    intros pre' post' Hpre. by destruct pre'.
  - destruct (IH n) as [(pre & post & -> & Hys & Hearly & Hend) Hnever].
    simpl. destruct (get_samples bam_workers n (pre ++ post)) as [ys e].
    simpl in *. split; [|done].
    exists (Payload x :: pre), post. split_and!; [done|by rewrite Hys| |done].
    intros [|m pre'] post' Hpre; simplify_eq/=.
    rewrite stops_cons_payload. by eapply Hearly.
  - simpl. case_decide as Hn; simpl.
    + split; [|lia]. exists [], (StopIteration :: rest).
      split_and!; [done|done| |].
      * intros pre' post' Hpre. by destruct pre'.
      * exists rest. split; [done|]. unfold stops. simpl. lia.
    + destruct (IH (S n)) as [(pre & post & -> & Hys & Hearly & Hend) Hnever].
      split; [|intros ?; apply Hnever; lia].
      exists (StopIteration :: pre), post.
      split_and!; [done|done| |].
      * intros [|m pre'] post' Hpre; simplify_eq/=.
        -- unfold stops. simpl. lia.
        -- rewrite stops_cons_stop.
           specialize (Hearly _ _ eq_refl). lia.
      * destruct (get_samples bam_workers (S n) (pre ++ post)).2; [|done].
        destruct Hend as (post' & -> & Hend). exists post'.
        split; [done|]. rewrite stops_cons_stop. lia.
Qed.
End get_samples.

Section batcher.
Context {Region Remainder Meta elt : Type}.
Context (run_region :
  Region → option (list (Sample Meta elt) * list Remainder)).
Context (batch_size bam_workers : nat).

#[local] Abbreviation State := (State Region Remainder Meta elt).
#[local] Abbreviation exec := (exec run_region batch_size bam_workers).
#[local] Abbreviation run := (run run_region batch_size bam_workers).
#[local] Abbreviation transition :=
  (transition run_region batch_size bam_workers).

Lemma run_batcher k (s s1 : State) :
  transition s Batcher s1 →
  run (replicate (S k) Batcher) s = run (replicate k Batcher) s1.
Proof.
  intros Hstep%transition_exec.
  change (run (replicate (S k) Batcher) s)
    with (exec Batcher s ≫= run (replicate k Batcher)).
  by rewrite Hstep.
Qed.

(** The state a step leads to, and the steps of the batcher after it. *)
Ltac target H :=
  lazymatch type of H with
  | Loader.transition _ _ _ _ _ ?s1 => s1
  end.

Ltac emit_from H data ended b Hmake Hmax Hemit :=
  let s1 := target H in
  pose proof (t_emit run_region batch_size bam_workers s1 data ended b
                eq_refl Hmake
                (full_unbounded (batches s1)
                   (Hmax : maxsize (batches s1) = 0))) as Hemit.

Ltac crash_from H data ended Hmake Hcrash :=
  let s1 := target H in
  pose proof (t_stack_error run_region batch_size bam_workers s1 data ended
                eq_refl Hmake) as Hcrash.

Ltac final_from H Hmax Hfinal :=
  let s1 := target H in
  pose proof (t_final run_region batch_size bam_workers s1 eq_refl
                (full_unbounded (batches s1)
                   (Hmax : maxsize (batches s1) = 0))) as Hfinal.

(** The batcher, moving alone from the head of the loop of [grouper] with
    the partial group [acc], on a sample queue from which [_get_samples]
    returns. *)
Lemma batcher_drains popped : ∀ (s : State) acc yielded,
  items (samples s) = popped → batcher s = BRun acc →
  maxsize (batches s) = 0 →
  get_samples bam_workers (nstops s) popped = (yielded, true) →
  ∃ k s',
    run (replicate k Batcher) s = Some s' ∧
    match mapM make_batch (grouper_from batch_size acc yielded) with
    | Some bl =>
        batcher s' = BDone ∧ nstops s' = bam_workers ∧
        items (batches s')
        = items (batches s) ++ (Payload <$> bl) ++ [StopIteration]
    | None => bcrashed (batcher s')
    end.
Proof.
  induction popped as [|[x|] rest IH]; intros s acc yielded Hitems Hb Hmax Hget.
  - done.
  - simpl in Hget.
    destruct (get_samples bam_workers (nstops s) rest) as [ys e] eqn:Hrest.
    injection Hget as <- ->. simpl.
    pose proof (t_pop_sample run_region batch_size bam_workers s acc x rest
                  Hb Hitems) as Hpop.
    destruct (grouper_next batch_size acc x) as [data|acc'] eqn:Hnext.
    + simpl. destruct (make_batch data) as [b|] eqn:Hmake; simpl.
      * emit_from Hpop data false b Hmake Hmax Hemit.
        let s2 := target Hemit in
        destruct (IH s2 [] ys eq_refl eq_refl Hmax Hrest)
          as (k & s' & Hrun & Hend).
        exists (S (S k)), s'.
        rewrite (run_batcher _ _ _ Hpop), (run_batcher _ _ _ Hemit).
        split; [exact Hrun|].
        destruct (mapM make_batch (grouper_from batch_size [] ys));
          simpl in *; [|done].
        destruct Hend as (? & ? & ->). by rewrite <-!app_assoc.
      * crash_from Hpop data false Hmake Hcrash.
        eexists 2, _.
        rewrite (run_batcher _ _ _ Hpop), (run_batcher _ _ _ Hcrash).
        split; [done|]. by simpl.
    + let s1 := target Hpop in
      destruct (IH s1 acc' ys eq_refl eq_refl Hmax Hrest)
        as (k & s' & Hrun & Hend).
      exists (S k), s'. by rewrite (run_batcher _ _ _ Hpop).
  - simpl in Hget. case_decide as Hn.
    + injection Hget as <-. simpl.
      pose proof (t_pop_last_stop run_region batch_size bam_workers s acc rest
                    Hb Hitems Hn) as Hpop.
      destruct acc as [|a acc]; simpl.
      * final_from Hpop Hmax Hfinal.
        eexists 2, _.
        rewrite (run_batcher _ _ _ Hpop), (run_batcher _ _ _ Hfinal).
        split; [done|]. by simpl.
      * destruct (make_batch (a :: acc)) as [b|] eqn:Hmake; simpl.
        -- emit_from Hpop (a :: acc) true b Hmake Hmax Hemit.
           final_from Hemit Hmax Hfinal.
           eexists 3, _.
           rewrite (run_batcher _ _ _ Hpop), (run_batcher _ _ _ Hemit),
             (run_batcher _ _ _ Hfinal).
           split; [done|]. simpl. by rewrite <-app_assoc.
        -- crash_from Hpop (a :: acc) true Hmake Hcrash.
           eexists 2, _.
           rewrite (run_batcher _ _ _ Hpop), (run_batcher _ _ _ Hcrash).
           split; [done|]. by simpl.
    + pose proof (t_pop_stop run_region batch_size bam_workers s acc rest
                    Hb Hitems Hn) as Hpop.
      let s1 := target Hpop in
      destruct (IH s1 acc yielded eq_refl Hb Hmax Hget)
        as (k & s' & Hrun & Hend).
      exists (S k), s'. by rewrite (run_batcher _ _ _ Hpop).
Qed.

(** X9. The thread of the transition system that runs [_batch_worker]
    does what the source says when it is read sequentially: started on a
    sample queue from which [_get_samples] returns after yielding
    [yielded], and left to move alone, it returns after putting on the
    batch queue the batches of [grouper(yielded, batch_size)], in order,
    and then the end-of-stream marker; or it dies, when [np.stack] raises
    on one of the groups. *)
Theorem batcher_refines (s : State) yielded :
  batcher s = BRun [] → nstops s = 0 → maxsize (batches s) = 0 →
  get_samples bam_workers 0 (items (samples s)) = (yielded, true) →
  ∃ k s',
    run (replicate k Batcher) s = Some s' ∧
    match batch_worker_puts batch_size yielded with
    | Some puts =>
        batcher s' = BDone ∧ items (batches s') = items (batches s) ++ puts
    | None => bcrashed (batcher s')
    end.
Proof.
  intros Hb Hn Hmax Hget. rewrite <-Hn in Hget.
  destruct (batcher_drains _ s [] yielded eq_refl Hb Hmax Hget)
    as (k & s' & Hrun & Hend).
  exists k, s'. split; [done|]. unfold batch_worker_puts, grouper.
  destruct (mapM make_batch (grouper_from batch_size [] yielded));
    simpl; [|done].
  by destruct Hend as (? & _ & ?).
Qed.
End batcher.
End GeneratorFacts.

(** ** The loop of [run_prediction] *)

Module WriterFacts.
Import NdArray PyQueue Grouper Loader Driver Writer.
Import GrouperFacts BatchFacts LoaderFacts ThreadFacts.

Section lists.
Context {A B C D : Type}.

Lemma fmap_zip_self (F : A → B → C → D) (g : A → C) (l : list A)
    (ps : list B) :
  (λ '(a, p, c), F a p c) <$> zip (zip l ps) (g <$> l)
  = zip_with (λ a p, F a p (g a)) l ps.
Proof.
  revert ps. induction l as [|a l IH]; intros [|p ps]; csimpl; [done..|].
  by rewrite IH.
Qed.

Lemma fmap_zip_with_l (h : D → C) (F : A → B → D) (g : A → C) (l : list A)
    (ps : list B) :
  (∀ a p, h (F a p) = g a) →
  h <$> zip_with F l ps = take (length ps) (g <$> l).
Proof.
  intros Hh. revert ps.
  induction l as [|a l IH]; intros [|p ps]; csimpl; [done..|].
  by rewrite Hh, IH.
Qed.

Lemma length_join_uniform (n : nat) (ls : list (list A)) :
  Forall (λ l, length l = n) ls → length (mjoin ls) = n * length ls.
Proof.
  induction 1 as [|l ls Hl _ IH]; csimpl; [lia|].
  rewrite length_app, IH, Hl. lia.
Qed.

(** The number of groups is the number of items divided by the size of a
    group, rounded up. *)
Lemma grouped_count (bs : nat) (gs : list (list A)) :
  0 < bs → grouped bs gs → length gs = (length (mjoin gs) + bs - 1) / bs.
Proof.
  intros Hbs (full & rest & -> & Hfull & Hrest).
  rewrite join_app, !length_app, (length_join_uniform bs full Hfull).
  destruct Hrest as [->|(g & -> & Hg)]; simpl.
  - apply (Nat.div_unique _ _ _ (bs - 1)); lia.
  - rewrite app_nil_r. apply (Nat.div_unique _ _ _ (length g - 1)); lia.
Qed.
End lists.

Section writer.
Context {Meta elt Prob : Type}.
Context (predict_on_batch : ndarray elt → list Prob).
Context (save_features : bool).

#[local] Abbreviation write_batch :=
  (write_batch predict_on_batch save_features).
#[local] Abbreviation written := (written predict_on_batch save_features).

Lemma iter_lookup (a : ndarray elt) i : iter a !! i = index a i.
Proof.
  unfold iter, index. destruct (shape a) as [|k sh]; [done|].
  rewrite list_lookup_fmap. case_decide.
  - by rewrite lookup_seq_lt.
  - by rewrite lookup_seq_ge by lia.
Qed.

(** The features of the samples of a batch are the rows of its array. *)
Lemma make_batch_features (data out : list (Sample Meta elt)) batch :
  make_batch data = Some (out, batch) → features <$> out = iter batch.
Proof.
  intros Hmake. apply list_eq. intros i.
  rewrite list_lookup_fmap, iter_lookup.
  destruct (data !! i) as [x|] eqn:Hi.
  - by destruct (make_batch_lookup _ _ _ _ _ Hmake Hi) as (v & -> & -> & _).
  - apply lookup_ge_None in Hi.
    rewrite (lookup_ge_None_2 out)
      by (by rewrite (make_batch_length _ _ _ Hmake)).
    destruct (make_batch_inv _ _ _ Hmake) as (sh & _ & -> & _).
    unfold index. simpl. by rewrite decide_False by lia.
Qed.

Lemma write_batch_made (data out : list (Sample Meta elt)) batch :
  make_batch data = Some (out, batch) →
  write_batch (out, batch)
  = zip_with
      (λ sample prob,
         (sample, prob,
          if save_features then Some (features sample) else None))
      out (predict_on_batch batch).
Proof.
  intros Hmake. unfold Writer.write_batch.
  rewrite <-(make_batch_features _ _ _ Hmake).
  exact (fmap_zip_self
           (λ sample prob feat,
              (sample, prob, if save_features then Some feat else None))
           features out (predict_on_batch batch)).
Qed.

(** X10. For a batch made by [_batch_worker], the inner loop of
    [run_prediction] takes one turn per sample for which the model has
    returned a row, and no more: the samples behind the last row are not
    written.  Turn [i] amends sample [i] with row [i]; the features it
    passes are the features the sample already has (the view [x_data[i]])
    when [save_features] is set, and [None] otherwise. *)
Theorem write_batch_spec (data out : list (Sample Meta elt)) batch :
  make_batch data = Some (out, batch) →
  write_batch (out, batch)
  = zip_with
      (λ sample prob,
         (sample, prob,
          if save_features then Some (features sample) else None))
      out (predict_on_batch batch) ∧
  length (write_batch (out, batch))
  = length data `min` length (predict_on_batch batch) ∧
  (λ c, meta c.1.1) <$> write_batch (out, batch)
  = take (length (predict_on_batch batch)) (meta <$> data) ∧
  (λ c, c.1.2) <$> write_batch (out, batch)
  = take (length data) (predict_on_batch batch).
Proof.
  intros Hmake. rewrite (write_batch_made _ _ _ Hmake).
  pose proof (make_batch_length _ _ _ Hmake) as Hlen.
  split_and!.
  - done.
  - by rewrite length_zip_with, Hlen.
  - rewrite <-(make_batch_meta _ _ _ Hmake).
    by apply fmap_zip_with_l.
  - rewrite <-Hlen. generalize (predict_on_batch batch).
    clear. induction out as [|a out IH]; intros [|p ps]; csimpl; [done..|].
    by rewrite IH.
Qed.

(** When the model returns one row per row of the batch, the samples the
    loop writes are those of the batches. *)
Lemma written_samples (bl : list (Batch Meta elt)) :
  (∀ batch, length (predict_on_batch batch) = length (iter batch)) →
  Forall (λ b, ∃ data, make_batch data = Some b) bl →
  (λ c, c.1.1) <$> written bl = mjoin bl.*1 ∧
  Forall (λ c, c.2 = if save_features then Some (features c.1.1) else None)
    (written bl).
Proof.
  intros Hrows.
  induction 1 as [|[out batch] bl [data Hmake] _ [IHs IHf]]; [done|].
  change (written ((out, batch) :: bl))
    with (write_batch (out, batch) ++ written bl).
  rewrite (write_batch_made _ _ _ Hmake). split.
  - rewrite fmap_app, IHs. csimpl. f_equal.
    rewrite (fmap_zip_with_l _ _ id) by done.
    rewrite list_fmap_id, Hrows, <-(make_batch_features _ _ _ Hmake).
    by rewrite length_fmap, firstn_all.
  - apply Forall_app. split; [|done].
    apply Forall_forall. intros c Hc.
    apply elem_of_lookup_zip_with in Hc as (i & x & p & -> & _). done.
Qed.
End writer.

Section run_prediction.
Context {Region Remainder Meta elt Prob : Type}.
Context (run_region :
  Region → option (list (Sample Meta elt) * list Remainder)).
Context (predict_on_batch : ndarray elt → list Prob).
Context (save_features : bool).
(** The arguments of [run_prediction]. *)
Context (regs : list Region) (batch_size bam_workers : nat).

#[local] Abbreviation reachable := (reachable run_region batch_size 2).
#[local] Abbreviation loader :=
  (run_prediction_loader (Remainder:=Remainder) (Meta:=Meta) (elt:=elt)
     regs batch_size bam_workers).
#[local] Abbreviation generated := (mjoin (gen_samples run_region <$> regs)).

Hypothesis gen_wf : ∀ r smpls remain,
  r ∈ regs → run_region r = Some (smpls, remain) → Forall wf_sample smpls.

Lemma consumed_all s :
  reachable loader s → finished s = true →
  emitted s = consumed s ∧
  value_of <$> mjoin (consumed s).*1 ≡ₚ value_of <$> generated.
Proof.
  intros Hreach Hfin.
  destruct (finished_state _ _ _ _ _ s Hreach Hfin) as (_ & Hbq & _).
  destruct (finished_vstream _ _ _ _ _ s Hreach Hfin)
    as (Hstream & Hpend & Hin & _).
  destruct (finished_healthy _ _ _ _ _ s Hreach Hfin) as [_ Hok].
  pose proof (inv_samples _ _ _ _ _ gen_wf s Hreach Hok) as Hsamples.
  unfold all_samples in Hsamples.
  rewrite Hstream, Hpend, Hin, !app_nil_r in Hsamples.
  split; [|done]. unfold emitted. rewrite Hbq. simpl. by rewrite app_nil_r.
Qed.

(** X11. When the loop of [run_prediction] ends, [n_batches], the number
    of batches the loader has returned, is the number of samples generated
    from the regions divided by [batch_size], rounded up. *)
Theorem run_prediction_n_batches s :
  0 < batch_size →
  reachable loader s → finished s = true →
  length (consumed s) = (length generated + batch_size - 1) / batch_size.
Proof.
  intros Hbs Hreach Hfin.
  destruct (consumed_all s Hreach Hfin) as [Hemitted Hsamples].
  destruct (inv_sizes _ _ _ _ _ Hbs s Hreach) as [Hgrouped _].
  rewrite Hemitted in Hgrouped.
  apply (grouped_count _ _ Hbs) in Hgrouped.
  apply Permutation_length in Hsamples.
  rewrite !length_fmap in Hsamples. rewrite length_fmap in Hgrouped.
  by rewrite <-Hsamples.
Qed.

(** X12. When the model returns one row per row of the batch it is given:
    at the end of the loop of [run_prediction], the samples handed to
    [ds.write_sample] are the samples generated from the regions, each one
    once; each is amended with the features it has when [save_features] is
    set, and with [None] otherwise. *)
Theorem run_prediction_writes_once s :
  (∀ batch, length (predict_on_batch batch) = length (iter batch)) →
  reachable loader s → finished s = true →
  (λ c, value_of c.1.1)
    <$> written predict_on_batch save_features (consumed s)
    ≡ₚ value_of <$> generated ∧
  length (written predict_on_batch save_features (consumed s))
  = length generated ∧
  Forall (λ c, c.2 = if save_features then Some (features c.1.1) else None)
    (written predict_on_batch save_features (consumed s)).
Proof.
  intros Hrows Hreach Hfin.
  destruct (consumed_all s Hreach Hfin) as [Hemitted Hsamples].
  pose proof (inv_emitted_made _ _ _ _ _ s Hreach) as Hmade.
  rewrite Hemitted in Hmade.
  destruct (written_samples predict_on_batch save_features _ Hrows Hmade)
    as [Hw Hfeat].
  assert ((λ c : Sample Meta elt * Prob * option (ndarray elt),
             value_of c.1.1)
            <$> written predict_on_batch save_features (consumed s)
          = value_of <$> mjoin (consumed s).*1) as Hvalues.
  { rewrite <-Hw, <-list_fmap_compose. done. }
  split_and!; [by rewrite Hvalues| |done].
  apply Permutation_length in Hsamples. rewrite !length_fmap in Hsamples.
  rewrite <-Hsamples, <-Hw. by rewrite length_fmap.
Qed.
End run_prediction.
End WriterFacts.

(** ** The regions [predict] hands to [run_prediction] *)

Module RegionFacts.
Import Regions.

Section facts.
Context {Region : Type}.
Context (size : Region → Z) (split : Region → Z → Z → list Region).
Context (bam_chunk chunk_ovlp : Z).

#[local] Abbreviation split_regions :=
  (split_regions size split bam_chunk chunk_ovlp).
#[local] Abbreviation pieces :=
  (λ region : Region,
     if decide (bam_chunk < size region)%Z
     then split region bam_chunk chunk_ovlp
     else [region]).

Lemma foldl_extend (l : list Region) : ∀ regions,
  foldl (λ regions region, regions ++ pieces region) regions l
  = regions ++ mjoin (pieces <$> l).
Proof.
  induction l as [|r l IH]; intros regions; csimpl.
  - by rewrite app_nil_r.
  - by rewrite IH, app_assoc.
Qed.

Lemma split_regions_join l : split_regions l = mjoin (pieces <$> l).
Proof. unfold Regions.split_regions. by rewrite foldl_extend. Qed.

(** X13. The list of regions [predict] builds: the regions are treated
    one by one and in order (the result for a concatenation is the
    concatenation of the results); a region no longer than
    [args.bam_chunk], one of exactly that size included, is kept as it is,
    so that the regions that are not split come out in their order and a
    list without a longer region comes out unchanged; and when [split]
    gives pieces no longer than [bam_chunk], no region of the result is
    longer than [bam_chunk]. *)
Theorem split_regions_spec (bam_regions : list Region) :
  (∀ l1 l2, split_regions (l1 ++ l2) = split_regions l1 ++ split_regions l2) ∧
  (∀ r, (size r ≤ bam_chunk)%Z → split_regions [r] = [r]) ∧
  filter (λ r, (size r ≤ bam_chunk)%Z) bam_regions
    `sublist_of` split_regions bam_regions ∧
  (Forall (λ r, (size r ≤ bam_chunk)%Z) bam_regions →
   split_regions bam_regions = bam_regions) ∧
  ((∀ r, (bam_chunk < size r)%Z →
      Forall (λ p, (size p ≤ bam_chunk)%Z) (split r bam_chunk chunk_ovlp)) →
   Forall (λ p, (size p ≤ bam_chunk)%Z) (split_regions bam_regions)).
Proof.
  split_and!.
  - intros l1 l2. by rewrite !split_regions_join, fmap_app, join_app.
  - intros r Hr. rewrite split_regions_join. csimpl.
    by rewrite decide_False by lia.
  - rewrite split_regions_join.
    induction bam_regions as [|r l IH]; csimpl; [done|].
    rewrite filter_cons. case_decide as Hr.
    + rewrite decide_False by lia. by apply sublist_skip.
    + rewrite decide_True by lia. by apply sublist_inserts_l.
  - intros Hall. rewrite split_regions_join.
    induction Hall as [|r l Hr _ IH]; csimpl; [done|].
    by rewrite decide_False, IH by lia.
  - intros Hsplit. rewrite split_regions_join.
    induction bam_regions as [|r l IH]; csimpl; [done|].
    apply Forall_app. split; [|done].
    case_decide as Hr; [by apply Hsplit|]. constructor; [lia|done].
Qed.
End facts.
End RegionFacts.

(** ** The environment [predict] sets *)

Module ThreadConfigFacts.
Import Driver.

(** X14. Whatever [args.threads] is, [predict] sets the intra-op and the
    OpenMP thread counts to "1"; it sets [TF_CPP_MIN_LOG_LEVEL] to "2"
    when the level of the package logger is above [logging.DEBUG] and
    leaves it as it was otherwise; and it leaves every other variable of
    the environment as it was, the four it assigns apart.  When
    [args.threads] is at most 2 (2 itself, zero and negative values
    included) it is taken as it is: it is the value put in
    [TF_NUM_INTEROP_THREADS], and the only message logged is the
    information on the setting, without a warning.  The message on the
    missing GPU is logged only when [args.threads] is more than 2 and no
    GPU is found. *)
Theorem predict_environ_settings (logger_level threads : Z) (n_gpu : nat)
    (environ : gmap string string) :
  (predict_environ logger_level threads n_gpu environ).1.2
    !! "TF_NUM_INTRAOP_THREADS" = Some "1" ∧
  (predict_environ logger_level threads n_gpu environ).1.2
    !! "OMP_NUM_THREADS" = Some "1" ∧
  (predict_environ logger_level threads n_gpu environ).1.2
    !! "TF_CPP_MIN_LOG_LEVEL"
  = (if decide (DEBUG < logger_level)%Z then Some "2"
     else environ !! "TF_CPP_MIN_LOG_LEVEL") ∧
  (∀ key,
     key ≠ "TF_CPP_MIN_LOG_LEVEL" →
     key ≠ "TF_NUM_INTEROP_THREADS" → key ≠ "TF_NUM_INTRAOP_THREADS" →
     key ≠ "OMP_NUM_THREADS" →
     (predict_environ logger_level threads n_gpu environ).1.2 !! key
     = environ !! key) ∧
  ((threads ≤ 2)%Z →
   (predict_environ logger_level threads n_gpu environ).1.1 = threads ∧
   (predict_environ logger_level threads n_gpu environ).1.2
     !! "TF_NUM_INTEROP_THREADS" = Some (str threads) ∧
   (predict_environ logger_level threads n_gpu environ).2
   = [(INFO, "Setting tensorflow inter/intra-op threads to "
               +:+ str threads +:+ "/1.")]) ∧
  (length (predict_environ logger_level threads n_gpu environ).2 = 3 ↔
   (2 < threads)%Z ∧ n_gpu = 0).
Proof.
  unfold predict_environ, predict_threads.
  assert (∀ (threads' : Z) (logged : list (Level * string)) env key,
            key ≠ "TF_NUM_INTEROP_THREADS" →
            key ≠ "TF_NUM_INTRAOP_THREADS" →
            key ≠ "OMP_NUM_THREADS" →
            (<["OMP_NUM_THREADS" := str 1]>
               (<["TF_NUM_INTRAOP_THREADS" := str 1]>
                  (<["TF_NUM_INTEROP_THREADS" := str threads']> env))
             : gmap string string) !! key = env !! key) as Hframe.
  { intros threads' _ env key ? ? ?. by rewrite !lookup_insert_ne. }
  case_decide as Hthreads; simpl; split_and!.
  - by rewrite lookup_insert_ne, lookup_insert_eq.
  - by rewrite lookup_insert_eq.
  - rewrite (Hframe 2%Z []) by done.
    case_decide; [by rewrite lookup_insert_eq|done].
  - intros key ? ? ? ?. rewrite (Hframe 2%Z []) by done.
    case_decide; [by rewrite lookup_insert_ne|done].
  - lia.
  - case_decide; simpl; split; try done; lia.
  - by rewrite lookup_insert_ne, lookup_insert_eq.
  - by rewrite lookup_insert_eq.
  - rewrite (Hframe threads []) by done.
    case_decide; [by rewrite lookup_insert_eq|done].
  - intros key ? ? ? ?. rewrite (Hframe threads []) by done.
    case_decide; [by rewrite lookup_insert_ne|done].
  - intros _. split_and!; [done| |done].
    by rewrite !lookup_insert_ne, lookup_insert_eq by done.
  - split; [done|]. intros [? _]. lia.
Qed.
End ThreadConfigFacts.

(** ** The further properties on small runs *)

Module MoreExamples.
Import NdArray PyQueue Grouper Loader Driver Scenario Mixed.
Import Generators Writer Regions.
Import Examples ThreadFacts GeneratorFacts WriterFacts RegionFacts.
Import ThreadConfigFacts.

Lemma full_run_runs :
  run generate 2 2 full_run (start [0; 1] 2 2)
  = Some (state_after [0; 1] 2 2 full_run).
Proof. by vm_compute. Defined.

Lemma group_collected_reachable :
  reachable generate_mixed 2 1 (start_mixed 2) (mixed_after 2 group_collected).
Proof. exists group_collected. by vm_compute. Defined.

Lemma worker_waiting_reachable :
  reachable generate 1 1 tight worker_waiting.
Proof. exists [Worker 0; Worker 0]. by vm_compute. Defined.

Lemma generate_mixed_total r : r ∈ [0] → is_Some (generate_mixed r).
Proof. intros _. destruct r; by eexists. Defined.

Lemma model_rows (batch : ndarray Z) :
  length (model batch) = length (iter batch).
Proof. apply length_seq. Defined.

Lemma run_monotone_witness :
  run generate 2 2 full_run (start [0; 1] 2 2)
  = Some (state_after [0; 1] 2 2 full_run) ∧
  remainders (start [0; 1] 2 2)
    `prefix_of` remainders (state_after [0; 1] 2 2 full_run) ∧
  nstops (start [0; 1] 2 2) ≤ nstops (state_after [0; 1] 2 2 full_run).
Proof.
  split; [exact full_run_runs|].
  destruct (run_monotone generate 2 2 _ _ _ full_run_runs)
    as (Hr & _ & _ & _ & Hn & _).
  split; [exact Hr|exact Hn].
Defined.

Lemma make_batch_fails_witness :
  make_batch [chunk 0 0; short_chunk 1 2] = None.
Proof.
  apply make_batch_fails. right.
  exists (chunk 0 0), (short_chunk 1 2).
  split_and!; [by left|right; by left|discriminate].
Defined.

Lemma finished_quiescent_witness :
  reachable generate 2 2 (start [0; 1] 2 2) (state_after [0; 1] 2 2 full_run) ∧
  finished (state_after [0; 1] 2 2 full_run) = true ∧
  exec generate 2 2 (Worker 1) (state_after [0; 1] 2 2 full_run) = None.
Proof.
  assert (finished (state_after [0; 1] 2 2 full_run) = true) as Hfin
    by reflexivity.
  split; [exact full_run_reachable|]. split; [exact Hfin|].
  destruct (finished_quiescent generate 2 2 [0; 1] 8 _ full_run_reachable
              Hfin) as [Hnone _].
  apply Hnone.
Defined.

Lemma stack_error_hangs_witness :
  reachable generate_mixed 2 1 (start_mixed 2)
    (mixed_after 2 group_collected) ∧
  batcher (mixed_after 2 group_collected)
  = BEmit [chunk 0 0; short_chunk 1 2] false ∧
  exec generate_mixed 2 1 Batcher (mixed_after 2 group_collected)
  = Some (set_batcher (BCrashed false) (mixed_after 2 group_collected)).
Proof.
  assert (batcher (mixed_after 2 group_collected)
          = BEmit [chunk 0 0; short_chunk 1 2] false) as Hb by reflexivity.
  assert (chunk 0 0 ∈ [chunk 0 0; short_chunk 1 2]) as Hx by (by left).
  assert (short_chunk 1 2 ∈ [chunk 0 0; short_chunk 1 2]) as Hy
    by (right; by left).
  assert (shape (features (chunk 0 0)) ≠ shape (features (short_chunk 1 2)))
    as Hne by discriminate.
  split; [exact group_collected_reachable|]. split; [exact Hb|].
  destruct (stack_error_hangs generate_mixed 2 1 [0] 8 _ _ _ _ _
              group_collected_reachable Hb Hx Hy Hne) as [Hstep _].
  exact Hstep.
Defined.

Lemma backpressure_witness :
  reachable generate 1 1 tight worker_waiting ∧
  workers worker_waiting !! 0 = Some (WPut [chunk 1 2] []) ∧
  exec generate 1 1 (Worker 0) worker_waiting = None ∧
  is_Some (exec generate 1 1 Batcher worker_waiting).
Proof.
  assert (workers worker_waiting !! 0 = Some (WPut [chunk 1 2] [])) as Hw
    by reflexivity.
  assert (exec generate 1 1 (Worker 0) worker_waiting = None) as Hnone
    by reflexivity.
  assert (¬ bcrashed (batcher worker_waiting)) as Hok by (simpl; tauto).
  split; [exact worker_waiting_reachable|]. split; [exact Hw|].
  split; [exact Hnone|].
  destruct (backpressure generate 1 1 [0] 1 _ 0 _ worker_waiting_reachable
              Hw ltac:(discriminate) ltac:(discriminate)) as [_ Hbatcher].
  exact (Hbatcher Hnone Hok).
Defined.

Lemma batches_tied_witness :
  reachable generate 2 2 (start [0; 1] 2 2) (state_after [0; 1] 2 2 full_run) ∧
  ∃ out batch sh,
    emitted (state_after [0; 1] 2 2 full_run) !! 0 = Some (out, batch) ∧
    shape batch = length out :: sh.
Proof.
  split; [exact full_run_reachable|].
  eassert (emitted (state_after [0; 1] 2 2 full_run) !! 0 = Some (_, _))
    as Hk by reflexivity.
  destruct (batches_tied generate 2 2 [0; 1] 8 _ 0 _ _ full_run_reachable Hk)
    as (sh & Hshape & _).
  eexists _, _, sh. split; [exact Hk|exact Hshape].
Defined.

Lemma single_sample_batches_witness :
  0 < 1 ∧ (∀ r, r ∈ [0] → is_Some (generate_mixed r)) ∧
  ∃ sched s,
    run generate_mixed 1 1 sched (start_mixed 1) = Some s ∧ finished s = true.
Proof.
  assert (0 < 1) as Hpos by lia.
  split; [exact Hpos|]. split; [exact generate_mixed_total|].
  destruct (single_sample_batches generate_mixed 1 [0] 8) as [_ Hend].
  destruct (Hend Hpos generate_mixed_total) as [_ Hreached].
  exact Hreached.
Defined.

Lemma get_samples_spec_witness :
  0 ≤ 0 ∧ (get_samples 0 0 [Payload 7; StopIteration (A:=nat)]).2 = false.
Proof.
  assert (0 ≤ 0) as Hle by lia. split; [exact Hle|].
  destruct (get_samples_spec 0 0 [Payload 7; StopIteration (A:=nat)])
    as [_ Hnever].
  exact (Hnever Hle).
Defined.

Lemma batcher_refines_witness :
  batcher (mixed_after 1 worker_done) = BRun [] ∧
  nstops (mixed_after 1 worker_done) = 0 ∧
  maxsize (batches (mixed_after 1 worker_done)) = 0 ∧
  get_samples 1 0 (items (samples (mixed_after 1 worker_done)))
  = ([chunk 0 0; short_chunk 1 2], true) ∧
  ∃ k s',
    run generate_mixed 1 1 (replicate k Batcher) (mixed_after 1 worker_done)
    = Some s' ∧
    batcher s' = BDone.
Proof.
  assert (batcher (mixed_after 1 worker_done) = BRun []) as Hb by reflexivity.
  assert (nstops (mixed_after 1 worker_done) = 0) as Hn by reflexivity.
  assert (maxsize (batches (mixed_after 1 worker_done)) = 0) as Hmax
    by reflexivity.
  assert (get_samples 1 0 (items (samples (mixed_after 1 worker_done)))
          = ([chunk 0 0; short_chunk 1 2], true)) as Hget by reflexivity.
  split_and!; [exact Hb|exact Hn|exact Hmax|exact Hget|].
  destruct (batcher_refines generate_mixed 1 1 _ _ Hb Hn Hmax Hget)
    as (k & s' & Hrun & Hend).
  exists k, s'. split; [exact Hrun|].
  simpl in Hend. by destruct Hend as [? _].
Defined.

Lemma write_batch_spec_witness :
  make_batch [chunk 0 0; chunk 1 2]
  = Some ([mk_sample 0 (mk_ndarray pileup 0 [2]);
           mk_sample 1 (mk_ndarray pileup 2 [2])],
          mk_ndarray pileup 0 [2; 2]) ∧
  length
    (write_batch (λ _, [5]) true
       ([mk_sample 0 (mk_ndarray pileup 0 [2]);
         mk_sample 1 (mk_ndarray pileup 2 [2])],
        mk_ndarray pileup 0 [2; 2]))
  = 2 `min` 1.
Proof.
  assert (make_batch [chunk 0 0; chunk 1 2]
          = Some ([mk_sample 0 (mk_ndarray pileup 0 [2]);
                   mk_sample 1 (mk_ndarray pileup 2 [2])],
                  mk_ndarray pileup 0 [2; 2])) as Hmake by reflexivity.
  split; [exact Hmake|].
  destruct (write_batch_spec (λ _, [5]) true _ _ _ Hmake) as (_ & Hlen & _).
  exact Hlen.
Defined.

Lemma run_prediction_n_batches_witness :
  0 < 2 ∧
  reachable generate 2 2 (run_prediction_loader [0; 1] 2 4)
    (state_after [0; 1] 2 2 full_run) ∧
  finished (state_after [0; 1] 2 2 full_run) = true ∧
  length (consumed (state_after [0; 1] 2 2 full_run))
  = (length (mjoin (gen_samples generate <$> [0; 1])) + 2 - 1) / 2.
Proof.
  assert (0 < 2) as Hbs by lia.
  assert (finished (state_after [0; 1] 2 2 full_run) = true) as Hfin
    by reflexivity.
  split; [exact Hbs|]. split; [exact full_run_reachable|].
  split; [exact Hfin|].
  exact (run_prediction_n_batches generate [0; 1] 2 4 (generate_wf [0; 1])
           _ Hbs full_run_reachable Hfin).
Defined.

Lemma run_prediction_writes_once_witness :
  (∀ batch, length (model batch) = length (iter batch)) ∧
  length (written model false (consumed (state_after [0; 1] 2 2 full_run)))
  = length (mjoin (gen_samples generate <$> [0; 1])).
Proof.
  split; [exact model_rows|].
  destruct (run_prediction_writes_once generate model false [0; 1] 2 4
              (generate_wf [0; 1]) _ model_rows full_run_reachable eq_refl)
    as (_ & Hlen & _).
  exact Hlen.
Defined.

Lemma split_regions_spec_witness :
  Forall (λ r, (Z.of_nat r ≤ 5)%Z) [3; 5] ∧
  split_regions Z.of_nat cut 5 1 [3; 5] = [3; 5].
Proof.
  assert (Forall (λ r, (Z.of_nat r ≤ 5)%Z) [3; 5]) as Hall
    by (repeat constructor; lia).
  split; [exact Hall|].
  destruct (split_regions_spec Z.of_nat cut 5 1 [3; 5])
    as (_ & _ & _ & Hsame & _).
  exact (Hsame Hall).
Defined.

Lemma predict_environ_settings_witness :
  (2 ≤ 2)%Z ∧
  (predict_environ 20 2 0 ∅).2
  = [(INFO, "Setting tensorflow inter/intra-op threads to "
              +:+ str 2 +:+ "/1.")] ∧
  (predict_environ 20 2 0 ∅).1.2 !! "TF_CPP_MIN_LOG_LEVEL" = Some "2".
Proof.
  assert (2 ≤ 2)%Z as Hthreads by lia. split; [exact Hthreads|].
  destruct (predict_environ_settings 20 2 0 ∅)
    as (_ & _ & Hlevel & _ & Hsmall & _).
  destruct (Hsmall Hthreads) as (_ & _ & Hlog).
  split; [exact Hlog|exact Hlevel].
Defined.
End MoreExamples.
